(** * The in-memory location service: positions and police pins

    A shallow embedding of the location service module (the two
    module-level [Map]s [activeLocations] and [policePins], the two
    eviction passes, the Haversine distance and the exported operations
    [updateLocation], [removeLocation], [getAllLocations],
    [getLocationCount], [addPolicePin] and [getAllPolicePins]), followed
    by the properties the specification states about them.

    Modelling choices.
    - A JavaScript [Map] iterates in insertion order, [set] on a present
      key overwrites the value in place, [set] on an absent key appends,
      and [delete] removes the entry: an association list [JsMap] with
      these three operations, keys being unique in every reachable state.
    - A [Date] is its epoch value in milliseconds, an integer: [Z].
    - Every evaluation of [new Date()] or [Date.now()] reads the
      wall clock.  The clock is the sequence [clock] of the readings the
      program will obtain, and [tick] counts the readings made so far, so
      that two reads in one call may differ, and a frozen clock is a
      constant sequence.
    - The coordinates and the distance are JavaScript numbers (IEEE 754
      doubles).  The arithmetic the source applies to them is the
      interface [JsNumber]; [calculateDistance] is written over this
      interface exactly as in the source, and every general theorem holds
      for every implementation of the interface.  Concrete examples
      are run in the implementation by real numbers, [RealNumber].
    - Strings are [string]s of the standard library; [slice(0, 4)] is
      [substring 0 4]. *)

From Stdlib Require Import ZArith List String Ascii Bool Lia.
From Stdlib Require Import Decimal DecimalString DecimalZ.
From Stdlib Require Import Reals Lra.
Import ListNotations.

Local Open Scope string_scope.
Local Open Scope Z_scope.

(** ** JavaScript [Map] with string keys *)

Module JsMap.

Definition t (V : Type) : Type := list (string * V).

Definition empty {V : Type} : t V := [].

Definition keys {V : Type} (m : t V) : list string := map fst m.

(** [Map.prototype.values()], in insertion order. *)
Definition values {V : Type} (m : t V) : list V := map snd m.

(** [Map.prototype.entries()], in insertion order. *)
Definition entries {V : Type} (m : t V) : list (string * V) := m.

(** [Map.prototype.size]. *)
Definition size {V : Type} (m : t V) : Z := Z.of_nat (List.length m).

Fixpoint get {V : Type} (k : string) (m : t V) : option V :=
  match m with
  | [] => None
  | (k', v) :: rest => if String.eqb k' k then Some v else get k rest
  end.

(** [Map.prototype.set]: a present key keeps its place and takes the new
    value, an absent key is appended. *)
Fixpoint set {V : Type} (k : string) (v : V) (m : t V) : t V :=
  match m with
  | [] => [(k, v)]
  | (k', v') :: rest =>
      if String.eqb k' k then (k, v) :: rest else (k', v') :: set k v rest
  end.

(** [Map.prototype.delete]. *)
Definition delete {V : Type} (k : string) (m : t V) : t V :=
  filter (fun e => negb (String.eqb (fst e) k)) m.

(** Keys are unique: the invariant of every [Map]. *)
Definition ok {V : Type} (m : t V) : Prop := NoDup (keys m).

End JsMap.

(** ** JavaScript numbers

    The operations on [number] that the source uses. *)

Class JsNumber : Type := {
  number : Type;
  num_of_Z : Z -> number;            (* an integer literal *)
  num_PI : number;                   (* Math.PI *)
  num_sub : number -> number -> number;
  num_add : number -> number -> number;
  num_mul : number -> number -> number;
  num_div : number -> number -> number;
  num_sin : number -> number;        (* Math.sin *)
  num_cos : number -> number;        (* Math.cos *)
  num_sqrt : number -> number;       (* Math.sqrt *)
  num_atan2 : number -> number -> number;  (* Math.atan2(y, x) *)
  num_ltb : number -> number -> bool;      (* x < y *)
  (* [<] is strict: no number, NaN included, is less than itself *)
  num_ltb_irrefl : forall x : number, num_ltb x x = false
}.

Declare Scope num_scope.
Delimit Scope num_scope with num.
Infix "+" := num_add : num_scope.
Infix "-" := num_sub : num_scope.
Infix "*" := num_mul : num_scope.
Infix "/" := num_div : num_scope.
Infix "<?" := num_ltb : num_scope.

(** ** The store *)

Section Store.

Context {N : JsNumber}.

(** The two interfaces; their fields carry a prefix, as both have an
    [id], a [latitude] and a [longitude]. *)
Record UserLocation : Type := {
  loc_id : string;
  loc_name : string;
  loc_latitude : number;
  loc_longitude : number;
  lastUpdated : Z
}.

Record PolicePin : Type := {
  pin_id : string;
  pin_userId : string;
  pin_userName : string;
  pin_latitude : number;
  pin_longitude : number;
  createdAt : Z
}.

(** The module state: the two maps, and the clock. *)
Record World : Type := {
  activeLocations : JsMap.t UserLocation;
  policePins : JsMap.t PolicePin;
  clock : nat -> Z;
  tick : nat
}.

Definition setActiveLocations (m : JsMap.t UserLocation) (w : World) : World :=
  {| activeLocations := m; policePins := policePins w;
     clock := clock w; tick := tick w |}.

Definition setPolicePins (m : JsMap.t PolicePin) (w : World) : World :=
  {| activeLocations := activeLocations w; policePins := m;
     clock := clock w; tick := tick w |}.

(** What the exported mutators return: [{ success }] or
    [{ success, error }]. *)
Record Result : Type := {
  success : bool;
  error : option string
}.

Definition STALE_THRESHOLD : Z := 30 * 1000.
Definition POLICE_PIN_THRESHOLD : Z := 20 * 60 * 1000.

(** *** A state monad over [World] *)

Definition M (A : Type) : Type := World -> A * World.

Definition ret {A : Type} (a : A) : M A := fun w => (a, w).

Definition bind {A B : Type} (m : M A) (k : A -> M B) : M B :=
  fun w => let (a, w') := m w in k a w'.

Notation "x <- m ;; k" := (bind m (fun x => k))
  (at level 61, m at next level, right associativity).
Notation "m ;;; k" := (bind m (fun _ => k))
  (at level 61, right associativity).

Definition gets {A : Type} (f : World -> A) : M A := fun w => (f w, w).

Definition modify (f : World -> World) : M unit := fun w => (tt, f w).

(** One reading of the clock: [new Date()], [new Date().getTime()] and
    [Date.now()]. *)
Definition Date_now : M Z :=
  fun w => (clock w (tick w),
            {| activeLocations := activeLocations w;
               policePins := policePins w;
               clock := clock w; tick := S (tick w) |}).

(** [for (const e of es) body(e)], for a body that does not return. *)
Fixpoint forEach {A : Type} (es : list A) (body : A -> M unit) : M unit :=
  match es with
  | [] => ret tt
  | e :: rest => body e ;;; forEach rest body
  end.

(** *** Eviction *)

(** The loop deletes only the entry it is visiting, which leaves the
    entries still to be visited in place: it visits the entries the map
    had when the loop began. *)
Definition cleanStaleLocations : M unit :=
  now <- Date_now ;;
  es <- gets (fun w => JsMap.entries (activeLocations w)) ;;
  forEach es (fun '(id, location) =>
    if now - lastUpdated location >? STALE_THRESHOLD
    then modify (fun w => setActiveLocations (JsMap.delete id (activeLocations w)) w)
    else ret tt).

Definition cleanStalePolicePins : M unit :=
  now <- Date_now ;;
  es <- gets (fun w => JsMap.entries (policePins w)) ;;
  forEach es (fun '(id, pin) =>
    if now - createdAt pin >? POLICE_PIN_THRESHOLD
    then modify (fun w => setPolicePins (JsMap.delete id (policePins w)) w)
    else ret tt).

(** *** Distance *)

Definition calculateDistance (lat1 lon1 lat2 lon2 : number) : number :=
  let R := num_of_Z 6371000 in
  let phi1 := ((lat1 * num_PI) / num_of_Z 180)%num in
  let phi2 := ((lat2 * num_PI) / num_of_Z 180)%num in
  let dphi := (((lat2 - lat1) * num_PI) / num_of_Z 180)%num in
  let dlambda := (((lon2 - lon1) * num_PI) / num_of_Z 180)%num in
  let a := (num_sin (dphi / num_of_Z 2) * num_sin (dphi / num_of_Z 2) +
            num_cos phi1 * num_cos phi2 *
            num_sin (dlambda / num_of_Z 2) * num_sin (dlambda / num_of_Z 2))%num in
  let c := (num_of_Z 2 *
            num_atan2 (num_sqrt a) (num_sqrt (num_of_Z 1 - a)))%num in
  (R * c)%num.

(** *** Positions *)

(** [name || `User ${userId.slice(0, 4)}`]: an absent and an empty name
    are both falsy. *)
Definition nameOrDefault (name : option string) (userId : string) : string :=
  match name with
  | Some (String c s) => String c s
  | Some EmptyString | None => "User " ++ substring 0 4 userId
  end.

Definition updateLocation (userId : string) (latitude longitude : number)
    (name : option string) : M Result :=
  cleanStaleLocations ;;;
  lastUpdated' <- Date_now ;;
  modify (fun w => setActiveLocations
    (JsMap.set userId
       {| loc_id := userId;
          loc_name := nameOrDefault name userId;
          loc_latitude := latitude;
          loc_longitude := longitude;
          lastUpdated := lastUpdated' |}
       (activeLocations w)) w) ;;;
  ret {| success := true; error := None |}.

Definition removeLocation (userId : string) : M Result :=
  modify (fun w => setActiveLocations (JsMap.delete userId (activeLocations w)) w) ;;;
  ret {| success := true; error := None |}.

Definition getAllLocations : M (list UserLocation) :=
  cleanStaleLocations ;;;
  gets (fun w => JsMap.values (activeLocations w)).

Definition getLocationCount : M Z :=
  cleanStaleLocations ;;;
  gets (fun w => JsMap.size (activeLocations w)).

(** *** Police pins *)

Definition TOO_CLOSE : string :=
  "Cannot place pin within 100 meters of your existing pins".

(** The admission loop of [addPolicePin]: [true] when the loop reaches
    its [return { success: false, ... }]. *)
Fixpoint hasPinWithin100 (userId : string) (latitude longitude : number)
    (pins : list PolicePin) : bool :=
  match pins with
  | [] => false
  | pin :: rest =>
      if String.eqb (pin_userId pin) userId then
        let distance :=
          calculateDistance (pin_latitude pin) (pin_longitude pin) latitude longitude in
        if (distance <? num_of_Z 100)%num then true
        else hasPinWithin100 userId latitude longitude rest
      else hasPinWithin100 userId latitude longitude rest
  end.

(** [`${userId}-${Date.now()}`] *)
Definition makePinId (userId : string) (now : Z) : string :=
  userId ++ "-" ++ NilEmpty.string_of_int (Z.to_int now).

Definition addPolicePin (userId userName : string) (latitude longitude : number)
    : M Result :=
  cleanStalePolicePins ;;;
  pins <- gets (fun w => JsMap.values (policePins w)) ;;
  if hasPinWithin100 userId latitude longitude pins then
    ret {| success := false; error := Some TOO_CLOSE |}
  else
    now <- Date_now ;;
    let pinId := makePinId userId now in
    createdAt' <- Date_now ;;
    modify (fun w => setPolicePins
      (JsMap.set pinId
         {| pin_id := pinId;
            pin_userId := userId;
            pin_userName := userName;
            pin_latitude := latitude;
            pin_longitude := longitude;
            createdAt := createdAt' |}
         (policePins w)) w) ;;;
    ret {| success := true; error := None |}.

Definition getAllPolicePins : M (list PolicePin) :=
  cleanStalePolicePins ;;;
  gets (fun w => JsMap.values (policePins w)).

End Store.

Arguments UserLocation {N}.
Arguments PolicePin {N}.
Arguments World {N}.
Arguments M {N} A.

(** The state of a freshly loaded module, under the clock [c]. *)
Definition initialWorld {N : JsNumber} (c : nat -> Z) : World :=
  {| activeLocations := JsMap.empty; policePins := JsMap.empty;
     clock := c; tick := 0 |}.

(** The value of a computation and the state it leaves. *)
Definition valueOf {N : JsNumber} {A : Type} (m : M A) (w : World) : A := fst (m w).
Definition stateAfter {N : JsNumber} {A : Type} (m : M A) (w : World) : World := snd (m w).

(** ** What the eviction passes compute

    [sweep stale es m] is the map that a deleting loop over the entries
    [es] leaves of [m]; [JsMap.ok] maps keep exactly the entries that are
    not stale. *)

Definition sweep {V : Type} (stale : V -> bool) (es : list (string * V))
    (m : JsMap.t V) : JsMap.t V :=
  fold_left (fun acc e => if stale (snd e) then JsMap.delete (fst e) acc else acc) es m.

Definition keep {V : Type} (stale : V -> bool) (m : JsMap.t V) : JsMap.t V :=
  filter (fun e => negb (stale (snd e))) m.

Definition staleLocation {N : JsNumber} (now : Z) (location : UserLocation) : bool :=
  now - lastUpdated location >? STALE_THRESHOLD.

Definition stalePin {N : JsNumber} (now : Z) (pin : PolicePin) : bool :=
  now - createdAt pin >? POLICE_PIN_THRESHOLD.

(** The position records, and the pins, that are live at [now]. *)
Definition liveLocations {N : JsNumber} (now : Z) (m : JsMap.t UserLocation) :=
  keep (staleLocation now) m.

Definition livePins {N : JsNumber} (now : Z) (m : JsMap.t PolicePin) :=
  keep (stalePin now) m.

(** The maps the two eviction passes leave, as the loops compute them. *)
Definition sweptLocations {N : JsNumber} (w : World) : JsMap.t UserLocation :=
  sweep (staleLocation (clock w (tick w)))
    (JsMap.entries (activeLocations w)) (activeLocations w).

Definition sweptPins {N : JsNumber} (w : World) : JsMap.t PolicePin :=
  sweep (stalePin (clock w (tick w)))
    (JsMap.entries (policePins w)) (policePins w).

(** The pin [addPolicePin] builds once the admission loop has passed. *)
Definition newPin {N : JsNumber} (userId userName : string)
    (latitude longitude : number) (now createdAt' : Z) : PolicePin :=
  {| pin_id := makePinId userId now;
     pin_userId := userId;
     pin_userName := userName;
     pin_latitude := latitude;
     pin_longitude := longitude;
     createdAt := createdAt' |}.

(** The two results of [addPolicePin]. *)
Definition rejected : Result := {| success := false; error := Some TOO_CLOSE |}.
Definition accepted : Result := {| success := true; error := None |}.

(** The caller owns a pin among [pins] less than 100 from the candidate. *)
Definition ownPinWithin100 {N : JsNumber} (userId : string)
    (latitude longitude : number) (pins : list PolicePin) : Prop :=
  exists pin, In pin pins /\ pin_userId pin = userId /\
    (calculateDistance (pin_latitude pin) (pin_longitude pin) latitude longitude
       <? num_of_Z 100)%num = true.

(** ** Real numbers as an implementation of [JsNumber] *)

Definition Ratan2 (y x : R) : R :=
  if Rlt_dec 0 x then atan (y / x)
  else if Rlt_dec x 0 then
    if Rle_dec 0 y then (atan (y / x) + PI)%R else (atan (y / x) - PI)%R
  else if Rlt_dec 0 y then (PI / 2)%R
  else if Rlt_dec y 0 then (- PI / 2)%R
  else 0%R.

Definition Rltb (x y : R) : bool := if Rlt_dec x y then true else false.

#[export] Instance RealNumber : JsNumber := {|
  number := R;
  num_of_Z := IZR;
  num_PI := PI;
  num_sub := Rminus;
  num_add := Rplus;
  num_mul := Rmult;
  num_div := Rdiv;
  num_sin := sin;
  num_cos := cos;
  num_sqrt := sqrt;
  num_atan2 := Ratan2;
  num_ltb := Rltb;
  num_ltb_irrefl := fun x =>
    match Rlt_dec x x as d return (if d then true else false) = false with
    | left H => False_ind _ (Rlt_irrefl x H)
    | right _ => eq_refl
    end
|}.

(** ** Example states

    States over the real numbers, for the examples below. *)

Definition alice : UserLocation (N := RealNumber) :=
  {| loc_id := "u1"; loc_name := "Alice";
     loc_latitude := 40%R; loc_longitude := (-73)%R; lastUpdated := 0 |}.

Definition bob : UserLocation (N := RealNumber) :=
  {| loc_id := "u2"; loc_name := "Bob";
     loc_latitude := 41%R; loc_longitude := (-74)%R; lastUpdated := 50000 |}.

(** [alice] was updated at 0 and [bob] at 50000; every reading of the
    clock gives [now]. *)
Definition twoPositions (now : Z) : World (N := RealNumber) :=
  {| activeLocations := [("u1", alice); ("u2", bob)];
     policePins := JsMap.empty;
     clock := fun _ => now; tick := 0 |}.

(** [pinA] was raised by ["a"] at (0, 0) at time 0, [pinB] by ["b"] at
    the same point and time; every reading of the clock gives [now]. *)
Definition pinA : PolicePin (N := RealNumber) :=
  {| pin_id := "a-0"; pin_userId := "a"; pin_userName := "Ann";
     pin_latitude := 0%R; pin_longitude := 0%R; createdAt := 0 |}.

Definition pinB : PolicePin (N := RealNumber) :=
  {| pin_id := "b-0"; pin_userId := "b"; pin_userName := "Ben";
     pin_latitude := 0%R; pin_longitude := 0%R; createdAt := 0 |}.

Definition onePin (now : Z) : World (N := RealNumber) :=
  {| activeLocations := JsMap.empty;
     policePins := [("a-0", pinA)];
     clock := fun _ => now; tick := 0 |}.

Definition twoPins (now : Z) : World (N := RealNumber) :=
  {| activeLocations := JsMap.empty;
     policePins := [("a-0", pinA); ("b-0", pinB)];
     clock := fun _ => now; tick := 0 |}.

(** ** Auxiliary definitions *)

(** The string has a dash in it. *)
Fixpoint hasDash (s : string) : bool :=
  match s with
  | EmptyString => false
  | String c rest => Ascii.eqb c "-" || hasDash rest
  end.

(** Both maps have unique keys. *)
Definition WorldOk {N : JsNumber} (w : World) : Prop :=
  JsMap.ok (activeLocations w) /\ JsMap.ok (policePins w).

(** The states the module can be in: the initial one, and the states the
    exported operations lead to. *)
Inductive reachable {N : JsNumber} : World -> Prop :=
| reach_initial (c : nat -> Z) : reachable (initialWorld c)
| reach_updateLocation w userId latitude longitude name :
    reachable w ->
    reachable (stateAfter (updateLocation userId latitude longitude name) w)
| reach_removeLocation w userId :
    reachable w -> reachable (stateAfter (removeLocation userId) w)
| reach_getAllLocations w :
    reachable w -> reachable (stateAfter getAllLocations w)
| reach_getLocationCount w :
    reachable w -> reachable (stateAfter getLocationCount w)
| reach_addPolicePin w userId userName latitude longitude :
    reachable w ->
    reachable (stateAfter (addPolicePin userId userName latitude longitude) w)
| reach_getAllPolicePins w :
    reachable w -> reachable (stateAfter getAllPolicePins w).

(** ** The callers of the store

    The route module [home] reads the store in its [loader]; the
    component [NearestPolice] and the handler [zoomToNearestPolice] of
    [home] search the pins of a snapshot for the one nearest to the user;
    the map component labels a record with the time since its date. *)

Module Home.

(** What [loader] returns: [{ locations, policePins }]. *)
Record LoaderData {N : JsNumber} : Type := {
  locations : list UserLocation;
  policePins : list PolicePin
}.

(** [loader]: the two snapshots, one after the other. *)
Definition loader {N : JsNumber} : M LoaderData :=
  bind getAllLocations (fun locations' =>
  bind getAllPolicePins (fun policePins' =>
  ret {| locations := locations'; policePins := policePins' |})).

End Home.

Module NearestPolice.

(** [currentUserLocation], when it is not [null]. *)
Record Location {N : JsNumber} : Type := {
  latitude : number;
  longitude : number
}.

(** The loop [for (let i = 1; i < policePins.length; i++)], run on the
    pins from index 1 on, with the variables [nearestPin] and
    [minDistance]. *)
Fixpoint nearestLoop {N : JsNumber} (here : Location) (pins : list PolicePin)
    (nearestPin : PolicePin) (minDistance : number) : PolicePin * number :=
  match pins with
  | [] => (nearestPin, minDistance)
  | pin :: rest =>
      let dist := calculateDistance (latitude here) (longitude here)
                    (pin_latitude pin) (pin_longitude pin) in
      if (dist <? minDistance)%num
      then nearestLoop here rest pin dist
      else nearestLoop here rest nearestPin minDistance
  end.

(** The search of the effect of [NearestPolice] and of
    [zoomToNearestPolice]: nothing when there is no location or no pin,
    and otherwise [nearestPin] and [minDistance] as the loop leaves
    them. *)
Definition findNearest {N : JsNumber} (currentUserLocation : option Location)
    (policePins : list PolicePin) : option (PolicePin * number) :=
  match currentUserLocation, policePins with
  | Some here, first :: rest =>
      Some (nearestLoop here rest first
              (calculateDistance (latitude here) (longitude here)
                 (pin_latitude first) (pin_longitude first)))
  | _, _ => None
  end.

End NearestPolice.

Module LocationMap.

(** A number in a template literal. *)
Definition decimal (n : Z) : string := NilEmpty.string_of_int (Z.to_int n).

(** The dates of the model: [now] and [date] are time values of valid
    [Date]s, at most 8.64e15 in absolute value, and they are at most
    2^53 apart.  There the subtraction of the source is exact, and the
    floor of each of its divisions is the quotient of the integers. *)
Definition inRange (now date : Z) : bool :=
  (Z.abs now <=? 8640000000000000) && (Z.abs date <=? 8640000000000000) &&
  (Z.abs (now - date) <=? 9007199254740992).

(** [getTimeAgo(date)], [now] being the value of [new Date().getTime()]
    and [date] the value of [date.getTime()]; [None] for dates that are
    not dates of the model. *)
Definition getTimeAgo (now date : Z) : option string :=
  if inRange now date then
    let seconds := (now - date) / 1000 in
    Some (if seconds <? 60 then "just now"
          else if seconds <? 120 then "1 minute ago"
          else if seconds <? 3600 then decimal (seconds / 60) ++ " minutes ago"
          else if seconds <? 7200 then "1 hour ago"
          else decimal (seconds / 3600) ++ " hours ago")
  else None.

End LocationMap.

(** ** Invariants of the reachable states *)

(** Every record is stored under its own id; a position has a name that
    is not empty, and the id of a pin is made of its creator and an
    instant. *)
Definition KeysAreIds {N : JsNumber} (w : World) : Prop :=
  (forall k r, In (k, r) (activeLocations w) -> loc_id r = k /\ loc_name r <> "") /\
  (forall k p, In (k, p) (policePins w) ->
     pin_id p = k /\ exists t, k = makePinId (pin_userId p) t).

(** Of two pins of one creator, stored under different ids, one is not
    less than 100 from the other. *)
Definition PinsApart {N : JsNumber} (pins : JsMap.t PolicePin) : Prop :=
  forall k1 p1 k2 p2,
    In (k1, p1) pins -> In (k2, p2) pins -> k1 <> k2 ->
    pin_userId p1 = pin_userId p2 ->
    (calculateDistance (pin_latitude p1) (pin_longitude p1)
       (pin_latitude p2) (pin_longitude p2) <? num_of_Z 100)%num = false \/
    (calculateDistance (pin_latitude p2) (pin_longitude p2)
       (pin_latitude p1) (pin_longitude p1) <? num_of_Z 100)%num = false.

(** A state the module reaches: ["u1"] reports a position without a name
    and raises a pin, under a clock that stays at 1000. *)
Definition afterOneUser : World (N := RealNumber) :=
  stateAfter (addPolicePin "u1" "User u1" 40%R (-73)%R)
    (stateAfter (updateLocation "u1" 40%R (-73)%R None)
       (initialWorld (fun _ => 1000))).

(** The position of ["a"] is 300000 ms old, and so is the pin [pinA]. *)
Definition staleOwnerLivePin : World (N := RealNumber) :=
  {| activeLocations := [("a", {| loc_id := "a"; loc_name := "Ann";
                                  loc_latitude := 0%R; loc_longitude := 0%R;
                                  lastUpdated := 0 |})];
     policePins := [("a-0", pinA)];
     clock := fun _ => 300000; tick := 0 |}.

(** ["a"] raises a pin at (0, 0) and one at (0, 180), the clock giving
    0, 1, 2, ... at its successive readings. *)
Definition twoFarPins : World (N := RealNumber) :=
  stateAfter (addPolicePin "a" "Ann" 0%R 180%R)
    (stateAfter (addPolicePin "a" "Ann" 0%R 0%R)
       (initialWorld (fun n => Z.of_nat n))).

(** A pin half the equator away from [pinA], and the user at the point
    of [pinA]. *)
Definition pinFar : PolicePin (N := RealNumber) :=
  {| pin_id := "c-0"; pin_userId := "c"; pin_userName := "Cy";
     pin_latitude := 0%R; pin_longitude := 180%R; createdAt := 0 |}.

Definition origin : NearestPolice.Location (N := RealNumber) :=
  {| NearestPolice.latitude := 0%R; NearestPolice.longitude := 0%R |}.

(** The registry holds one pin of ["a"], made at 1000, and the clock
    stays at 1000. *)
Definition pinAt1000 : World (N := RealNumber) :=
  {| activeLocations := JsMap.empty;
     policePins :=
       [("a-1000",
         {| pin_id := "a-1000"; pin_userId := "a"; pin_userName := "Ann";
            pin_latitude := 0%R; pin_longitude := 0%R; createdAt := 1000 |})];
     clock := fun _ => 1000; tick := 0 |}.

(** ** Facts about [JsMap] *)

Module JsMapFacts.
Import JsMap.

Section Facts.
Context {V : Type}.
Implicit Types (m : JsMap.t V) (k : string) (v : V).

Lemma get_set_same k v m : get k (set k v m) = Some v.
Proof.
  induction m as [|[k' v'] m IH]; simpl.
  - now rewrite String.eqb_refl.
  - destruct (String.eqb k' k) eqn:E; simpl.
    + now rewrite String.eqb_refl.
    + now rewrite E.
Qed.

Lemma get_set_other k k' v m : k' <> k -> get k' (set k v m) = get k' m.
Proof.
  intros Hne. induction m as [|[k0 v0] m IH]; simpl.
  - destruct (String.eqb_spec k k'); [congruence | reflexivity].
  - destruct (String.eqb_spec k0 k) as [->|Hk0]; simpl.
    + destruct (String.eqb_spec k k'); [congruence|].
      destruct (String.eqb_spec k k'); [congruence | reflexivity].
    + destruct (String.eqb_spec k0 k'); [reflexivity | exact IH].
Qed.

Lemma get_None_notin k m : get k m = None <-> ~ In k (keys m).
Proof.
  induction m as [|[k' v'] m IH]; simpl.
  - tauto.
  - destruct (String.eqb_spec k' k) as [->|Hne].
    + split; [discriminate | tauto].
    + rewrite IH. tauto.
Qed.

Lemma get_In k v m : get k m = Some v -> In (k, v) m.
Proof.
  induction m as [|[k' v'] m IH]; simpl; [discriminate|].
  destruct (String.eqb_spec k' k) as [->|Hne].
  - intros [= ->]. now left.
  - intros H. right. auto.
Qed.

Lemma In_get k v m : ok m -> In (k, v) m -> get k m = Some v.
Proof.
  unfold ok. induction m as [|[k' v'] m IH]; simpl; [tauto|].
  intros Hnd [Heq|Hin].
  - injection Heq as -> ->. now rewrite String.eqb_refl.
  - inversion Hnd as [|? ? Hnotin Hnd']; subst.
    destruct (String.eqb_spec k' k) as [->|Hne].
    + exfalso. apply Hnotin. change k with (fst (k, v)). now apply in_map.
    + auto.
Qed.

Lemma set_absent k v m : ~ In k (keys m) -> set k v m = (m ++ [(k, v)])%list.
Proof.
  induction m as [|[k' v'] m IH]; simpl; [reflexivity|].
  intros Hnotin. destruct (String.eqb_spec k' k) as [->|Hne].
  - tauto.
  - f_equal. apply IH. tauto.
Qed.

Lemma keys_set k v m : In k (keys m) -> keys (set k v m) = keys m.
Proof.
  induction m as [|[k' v'] m IH]; simpl; [tauto|].
  destruct (String.eqb_spec k' k) as [->|Hne]; simpl.
  - reflexivity.
  - intros [?|Hin]; [congruence|]. f_equal. auto.
Qed.

Lemma ok_empty : ok (@empty V).
Proof. constructor. Qed.

Lemma ok_set k v m : ok m -> ok (set k v m).
Proof.
  unfold ok. intros Hnd.
  destruct (in_dec string_dec k (keys m)) as [Hin|Hnotin].
  - now rewrite keys_set.
  - rewrite set_absent by assumption. unfold keys. rewrite map_app. simpl.
    apply NoDup_app; [exact Hnd | repeat constructor; simpl; tauto |].
    intros x Hx [<-|[]]. auto.
Qed.

Lemma ok_filter (f : string * V -> bool) m : ok m -> ok (filter f m).
Proof.
  unfold ok, keys. induction m as [|e m IH]; simpl; [trivial|].
  intros Hnd. inversion Hnd as [|? ? Hnotin Hnd']; subst.
  destruct (f e); simpl; auto.
  constructor; auto.
  intros Hin. apply Hnotin. apply in_map_iff in Hin as [x [Hx Hin]].
  apply filter_In in Hin as [Hin _]. rewrite <- Hx. now apply in_map.
Qed.

Lemma ok_delete k m : ok m -> ok (delete k m).
Proof. apply ok_filter. Qed.

Lemma get_delete_same k m : get k (delete k m) = None.
Proof.
  apply get_None_notin. unfold keys, delete. intros Hin.
  apply in_map_iff in Hin as [e [He Hin]]. apply filter_In in Hin as [_ Hneq].
  subst k. now rewrite String.eqb_refl in Hneq.
Qed.

Lemma delete_delete k m : delete k (delete k m) = delete k m.
Proof.
  unfold delete. induction m as [|e m IH]; simpl; [reflexivity|].
  destruct (String.eqb (fst e) k) eqn:E; simpl; [exact IH|].
  rewrite E. simpl. now f_equal.
Qed.

Lemma delete_absent k m : ~ In k (keys m) -> delete k m = m.
Proof.
  unfold delete, keys. induction m as [|e m IH]; simpl; [reflexivity|].
  intros Hnotin. destruct (String.eqb_spec (fst e) k) as [Heq|Hne]; simpl.
  - tauto.
  - f_equal. apply IH. tauto.
Qed.

Lemma filter_filter (f g : string * V -> bool) m :
  filter f (filter g m) = filter (fun e => g e && f e) m.
Proof.
  induction m as [|e m IH]; simpl; [reflexivity|].
  destruct (g e); simpl; [destruct (f e)|]; now rewrite IH.
Qed.

(** The deleting loop, over any list of entries. *)
Lemma sweep_as_filter (stale : V -> bool) (es : list (string * V)) m :
  sweep stale es m =
  filter (fun e => negb (existsb
            (fun e' => stale (snd e') && String.eqb (fst e) (fst e')) es)) m.
Proof.
  revert m. induction es as [|e0 es IH]; intros m; simpl.
  - induction m as [|e m IHm]; simpl; [reflexivity | now f_equal].
  - unfold sweep in IH |- *. simpl. rewrite IH.
    destruct (stale (snd e0)); simpl.
    + unfold delete. rewrite filter_filter. apply filter_ext. intros e.
      now rewrite negb_orb.
    + reflexivity.
Qed.

(** On a map with unique keys the loop over its own entries keeps
    exactly the entries that are not stale. *)
Lemma sweep_keep (stale : V -> bool) m :
  ok m -> sweep stale (entries m) m = keep stale m.
Proof.
  intros Hok. rewrite sweep_as_filter. unfold keep, entries.
  apply filter_ext_in. intros e He. f_equal.
  destruct (stale (snd e)) eqn:Es.
  - apply existsb_exists. exists e. now rewrite Es, String.eqb_refl.
  - destruct (existsb _ m) eqn:Ex; [|reflexivity].
    apply existsb_exists in Ex as [e' [He' Hb]].
    apply andb_prop in Hb as [Hs Hk]. apply String.eqb_eq in Hk.
    destruct e as [k v], e' as [k' v']. simpl in *. subst k'.
    pose proof (In_get _ _ _ Hok He) as G1.
    pose proof (In_get _ _ _ Hok He') as G2.
    congruence.
Qed.

Lemma ok_sweep (stale : V -> bool) es m : ok m -> ok (sweep stale es m).
Proof. intros Hok. rewrite sweep_as_filter. now apply ok_filter. Qed.

Lemma In_keep (stale : V -> bool) m e :
  In e (keep stale m) <-> In e m /\ stale (snd e) = false.
Proof.
  unfold keep. rewrite filter_In. rewrite negb_true_iff. tauto.
Qed.

Lemma length_values m : List.length (values m) = List.length m.
Proof. apply length_map. Qed.

End Facts.
End JsMapFacts.

(** ** Running the operations *)

Section StoreFacts.

Context {N : JsNumber}.
Import JsMapFacts.

Notation "x <- m ;; k" := (bind m (fun x => k))
  (at level 61, m at next level, right associativity).

Lemma forEach_delete_locations (now : Z) es (w : World) :
  forEach es (fun '(id, location) =>
    if now - lastUpdated location >? STALE_THRESHOLD
    then modify (fun w => setActiveLocations (JsMap.delete id (activeLocations w)) w)
    else ret tt) w
  = (tt, setActiveLocations (sweep (staleLocation now) es (activeLocations w)) w).
Proof.
  revert w. induction es as [|[id location] es IH]; intros w.
  - destruct w; reflexivity.
  - cbn [forEach]. unfold bind at 1.
    unfold sweep. cbn [fold_left fst snd]. fold (sweep (staleLocation now) es).
    unfold staleLocation at 2.
    destruct (now - lastUpdated location >? STALE_THRESHOLD).
    + unfold modify. rewrite IH. reflexivity.
    + unfold ret at 1. apply IH.
Qed.

Lemma forEach_delete_pins (now : Z) es (w : World) :
  forEach es (fun '(id, pin) =>
    if now - createdAt pin >? POLICE_PIN_THRESHOLD
    then modify (fun w => setPolicePins (JsMap.delete id (policePins w)) w)
    else ret tt) w
  = (tt, setPolicePins (sweep (stalePin now) es (policePins w)) w).
Proof.
  revert w. induction es as [|[id pin] es IH]; intros w.
  - destruct w; reflexivity.
  - cbn [forEach]. unfold bind at 1.
    unfold sweep. cbn [fold_left fst snd]. fold (sweep (stalePin now) es).
    unfold stalePin at 2.
    destruct (now - createdAt pin >? POLICE_PIN_THRESHOLD).
    + unfold modify. rewrite IH. reflexivity.
    + unfold ret at 1. apply IH.
Qed.

Lemma cleanStaleLocations_run (w : World) :
  cleanStaleLocations w =
  (tt, {| activeLocations := sweptLocations w;
          policePins := policePins w;
          clock := clock w; tick := S (tick w) |}).
Proof.
  unfold cleanStaleLocations, bind, Date_now, gets.
  rewrite forEach_delete_locations. reflexivity.
Qed.

Lemma cleanStalePolicePins_run (w : World) :
  cleanStalePolicePins w =
  (tt, {| activeLocations := activeLocations w;
          policePins := sweptPins w;
          clock := clock w; tick := S (tick w) |}).
Proof.
  unfold cleanStalePolicePins, bind, Date_now, gets.
  rewrite forEach_delete_pins. reflexivity.
Qed.

Lemma sweptLocations_live (w : World) :
  JsMap.ok (activeLocations w) ->
  sweptLocations w = liveLocations (clock w (tick w)) (activeLocations w).
Proof. intros Hok. unfold sweptLocations, liveLocations. now apply sweep_keep. Qed.

Lemma sweptPins_live (w : World) :
  JsMap.ok (policePins w) ->
  sweptPins w = livePins (clock w (tick w)) (policePins w).
Proof. intros Hok. unfold sweptPins, livePins. now apply sweep_keep. Qed.

Lemma In_liveLocations now (m : JsMap.t UserLocation) e :
  In e (liveLocations now m) <->
  In e m /\ now - lastUpdated (snd e) <= STALE_THRESHOLD.
Proof.
  unfold liveLocations. rewrite In_keep. unfold staleLocation.
  rewrite Z.gtb_ltb, Z.ltb_ge. tauto.
Qed.

Lemma In_livePins now (m : JsMap.t PolicePin) e :
  In e (livePins now m) <->
  In e m /\ now - createdAt (snd e) <= POLICE_PIN_THRESHOLD.
Proof.
  unfold livePins. rewrite In_keep. unfold stalePin.
  rewrite Z.gtb_ltb, Z.ltb_ge. tauto.
Qed.

Lemma updateLocation_run userId latitude longitude name (w : World) :
  updateLocation userId latitude longitude name w =
  ({| success := true; error := None |},
   {| activeLocations :=
        JsMap.set userId
          {| loc_id := userId;
             loc_name := nameOrDefault name userId;
             loc_latitude := latitude;
             loc_longitude := longitude;
             lastUpdated := clock w (S (tick w)) |}
          (sweptLocations w);
      policePins := policePins w;
      clock := clock w; tick := S (S (tick w)) |}).
Proof.
  unfold updateLocation, bind. rewrite cleanStaleLocations_run. reflexivity.
Qed.

Lemma removeLocation_run userId (w : World) :
  removeLocation userId w =
  ({| success := true; error := None |},
   setActiveLocations (JsMap.delete userId (activeLocations w)) w).
Proof. reflexivity. Qed.

Lemma getAllLocations_run (w : World) :
  getAllLocations w =
  (JsMap.values (sweptLocations w),
   {| activeLocations := sweptLocations w;
      policePins := policePins w;
      clock := clock w; tick := S (tick w) |}).
Proof.
  unfold getAllLocations, bind. rewrite cleanStaleLocations_run. reflexivity.
Qed.

Lemma getLocationCount_run (w : World) :
  getLocationCount w =
  (JsMap.size (sweptLocations w),
   {| activeLocations := sweptLocations w;
      policePins := policePins w;
      clock := clock w; tick := S (tick w) |}).
Proof.
  unfold getLocationCount, bind. rewrite cleanStaleLocations_run. reflexivity.
Qed.

Lemma getAllPolicePins_run (w : World) :
  getAllPolicePins w =
  (JsMap.values (sweptPins w),
   {| activeLocations := activeLocations w;
      policePins := sweptPins w;
      clock := clock w; tick := S (tick w) |}).
Proof.
  unfold getAllPolicePins, bind. rewrite cleanStalePolicePins_run. reflexivity.
Qed.

Lemma addPolicePin_run userId userName latitude longitude (w : World) :
  addPolicePin userId userName latitude longitude w =
  if hasPinWithin100 userId latitude longitude (JsMap.values (sweptPins w))
  then (rejected,
        {| activeLocations := activeLocations w;
           policePins := sweptPins w;
           clock := clock w; tick := S (tick w) |})
  else (accepted,
        {| activeLocations := activeLocations w;
           policePins :=
             JsMap.set (makePinId userId (clock w (S (tick w))))
               (newPin userId userName latitude longitude
                  (clock w (S (tick w))) (clock w (S (S (tick w)))))
               (sweptPins w);
           clock := clock w; tick := S (S (S (tick w))) |}).
Proof.
  unfold addPolicePin, bind. rewrite cleanStalePolicePins_run.
  unfold gets. cbn [policePins].
  destruct (hasPinWithin100 _ _ _ _); reflexivity.
Qed.

(** The admission loop stops at its [return] exactly when the caller
    owns a pin less than 100 from the candidate. *)
Lemma hasPinWithin100_true userId latitude longitude pins :
  hasPinWithin100 userId latitude longitude pins = true <->
  ownPinWithin100 userId latitude longitude pins.
Proof.
  unfold ownPinWithin100. induction pins as [|p pins IH]; simpl.
  - split; [discriminate | intros [? [[] _]]].
  - destruct (String.eqb_spec (pin_userId p) userId) as [Heq|Hne].
    + destruct (num_ltb _ _) eqn:Hd.
      * split; [|reflexivity]. intros _. exists p. auto.
      * rewrite IH. split.
        -- intros [q [Hin Hq]]. exists q. tauto.
        -- intros [q [[<-|Hin] [Hu Hq]]]; [congruence|]. exists q. tauto.
    + rewrite IH. split.
      * intros [q [Hin Hq]]. exists q. tauto.
      * intros [q [[<-|Hin] [Hu Hq]]]; [congruence|]. exists q. tauto.
Qed.

(** Pins of other creators do not take part in the admission loop. *)
Lemma hasPinWithin100_own userId latitude longitude pins :
  hasPinWithin100 userId latitude longitude pins =
  hasPinWithin100 userId latitude longitude
    (filter (fun pin => String.eqb (pin_userId pin) userId) pins).
Proof.
  induction pins as [|p pins IH]; simpl; [reflexivity|].
  destruct (String.eqb (pin_userId p) userId) eqn:E; simpl.
  - rewrite E. now rewrite IH.
  - exact IH.
Qed.

End StoreFacts.

(** ** Two distances over the real numbers *)

Section RealDistances.

Local Open Scope R_scope.

Lemma Ratan2_0_1 : Ratan2 0 1 = 0.
Proof.
  unfold Ratan2. destruct (Rlt_dec 0 1) as [_|H]; [|exfalso; apply H; lra].
  replace (0 / 1) with 0 by field. apply atan_0.
Qed.

Lemma Ratan2_1_0 : Ratan2 1 0 = PI / 2.
Proof.
  unfold Ratan2.
  destruct (Rlt_dec 0 0) as [H|_]; [lra|].
  destruct (Rlt_dec 0 1) as [_|H]; [reflexivity | exfalso; apply H; lra].
Qed.

(** A point is at distance 0 from itself. *)
Lemma calculateDistance_same (lat lon : R) :
  calculateDistance (N := RealNumber) lat lon lat lon = 0.
Proof.
  unfold calculateDistance. cbn.
  replace ((lat - lat) * PI / 180 / 2) with 0 by field.
  replace ((lon - lon) * PI / 180 / 2) with 0 by field.
  rewrite sin_0.
  replace (0 * 0 + cos (lat * PI / 180) * cos (lat * PI / 180) * 0 * 0) with 0 by ring.
  rewrite sqrt_0. replace (1 - 0) with 1 by ring. rewrite sqrt_1, Ratan2_0_1. ring.
Qed.

(** From (0, 0) to (0, 180): half of the equator. *)
Lemma calculateDistance_antipodes :
  calculateDistance (N := RealNumber) 0 0 0 180 = 6371000 * (2 * (PI / 2)).
Proof.
  unfold calculateDistance. cbn.
  replace ((0 - 0) * PI / 180 / 2) with 0 by field.
  replace ((180 - 0) * PI / 180 / 2) with (PI / 2) by field.
  replace (0 * PI / 180) with 0 by field.
  rewrite sin_0, cos_0, sin_PI2.
  replace (0 * 0 + 1 * 1 * 1 * 1) with 1 by ring.
  replace (1 - 1) with 0 by ring.
  rewrite sqrt_1, sqrt_0, Ratan2_1_0. reflexivity.
Qed.

Lemma near_same (lat lon : R) :
  num_ltb (calculateDistance (N := RealNumber) lat lon lat lon) (num_of_Z 100) = true.
Proof.
  rewrite calculateDistance_same. cbn. unfold Rltb.
  destruct (Rlt_dec 0 100) as [_|H]; [reflexivity | exfalso; apply H; lra].
Qed.

Lemma far_antipodes :
  num_ltb (calculateDistance (N := RealNumber) 0 0 0 180) (num_of_Z 100) = false.
Proof.
  rewrite calculateDistance_antipodes. cbn. unfold Rltb.
  destruct (Rlt_dec _ _) as [H|_]; [|reflexivity].
  exfalso. pose proof PI2_1. lra.
Qed.

End RealDistances.

(** ** The position registry *)

Lemma twoPositions_ok now : JsMap.ok (activeLocations (twoPositions now)).
Proof.
  unfold JsMap.ok. simpl. repeat constructor; simpl; intuition discriminate.
Qed.

(** C2. A position snapshot evicts, as an effect of the read, every
    record whose age [now - lastUpdated] is strictly more than 30000 ms,
    and returns the records that remain, in the order of the map: the
    registry after the read holds exactly the entries of age at most
    30000 ms, and the result is the list of its values.  A record updated
    at [t0] is returned by a read at [t0 + 29999] and is not returned by a
    read at [t0 + 30001]; so is the record that [updateLocation] has just
    stored, read by the next reading of the clock. *)
Theorem getAllLocations_evicts_stale {N : JsNumber} (w : World) :
  JsMap.ok (activeLocations w) ->
  let now := clock w (tick w) in
  let w' := stateAfter getAllLocations w in
  valueOf getAllLocations w = JsMap.values (activeLocations w') /\
  activeLocations w' =
    filter (fun e => negb (now - lastUpdated (snd e) >? 30 * 1000))
      (activeLocations w) /\
  (forall e, In e (activeLocations w') <->
     In e (activeLocations w) /\ now - lastUpdated (snd e) <= 30000) /\
  policePins w' = policePins w /\
  (forall id r, In (id, r) (activeLocations w) ->
     now = lastUpdated r + 29999 -> In r (valueOf getAllLocations w)) /\
  (forall r, lastUpdated r + 30001 = now -> ~ In r (valueOf getAllLocations w)) /\
  (forall userId latitude longitude name,
     let w1 := stateAfter (updateLocation userId latitude longitude name) w in
     let t0 := clock w (S (tick w)) in
     let r := {| loc_id := userId; loc_name := nameOrDefault name userId;
                 loc_latitude := latitude; loc_longitude := longitude;
                 lastUpdated := t0 |} in
     (clock w1 (tick w1) = t0 + 29999 -> In r (valueOf getAllLocations w1)) /\
     (clock w1 (tick w1) = t0 + 30001 -> ~ In r (valueOf getAllLocations w1))).
Proof.
  intros Hok now w'.
  assert (Hgen : forall (v : World) r,
            lastUpdated r + 30001 = clock v (tick v) ->
            JsMap.ok (activeLocations v) ->
            ~ In r (valueOf getAllLocations v)).
  { intros v r Hr Hv Hin. unfold valueOf in Hin. rewrite getAllLocations_run in Hin.
    cbn [fst] in Hin. rewrite sweptLocations_live in Hin by assumption.
    apply in_map_iff in Hin as [e [He Hin]].
    apply In_liveLocations in Hin as [_ Hage]. subst r.
    unfold STALE_THRESHOLD in Hage. lia. }
  assert (Hgen' : forall (v : World) id r,
            In (id, r) (activeLocations v) ->
            clock v (tick v) = lastUpdated r + 29999 ->
            JsMap.ok (activeLocations v) ->
            In r (valueOf getAllLocations v)).
  { intros v id r Hin Hr Hv. unfold valueOf. rewrite getAllLocations_run.
    cbn [fst]. rewrite sweptLocations_live by assumption.
    apply in_map_iff. exists (id, r). split; [reflexivity|].
    apply In_liveLocations. split; [assumption|].
    cbn [snd]. unfold STALE_THRESHOLD. lia. }
  subst w'. unfold stateAfter, valueOf in *. rewrite getAllLocations_run in *.
  cbn [fst snd activeLocations policePins].
  rewrite sweptLocations_live by assumption. fold now.
  repeat split.
  - apply In_liveLocations in H. tauto.
  - apply In_liveLocations in H. unfold STALE_THRESHOLD in H. tauto.
  - intros [H1 H2]. apply In_liveLocations. unfold STALE_THRESHOLD. tauto.
  - intros id r Hin Hr. specialize (Hgen' w id r Hin Hr Hok).
    rewrite getAllLocations_run in Hgen'. cbn [fst] in Hgen'.
    now rewrite sweptLocations_live in Hgen' by assumption.
  - intros r Hr. specialize (Hgen w r Hr Hok).
    rewrite getAllLocations_run in Hgen. cbn [fst] in Hgen.
    now rewrite sweptLocations_live in Hgen by assumption.
  - intros Hread. rewrite updateLocation_run in *. cbn [snd] in *.
    eapply Hgen' with (id := userId).
    + cbn [activeLocations]. apply JsMapFacts.get_In. apply JsMapFacts.get_set_same.
    + exact Hread.
    + cbn [activeLocations]. apply JsMapFacts.ok_set. now apply JsMapFacts.ok_sweep.
  - intros Hread. rewrite updateLocation_run in *. cbn [snd] in *.
    apply Hgen.
    + symmetry. exact Hread.
    + cbn [activeLocations]. apply JsMapFacts.ok_set. now apply JsMapFacts.ok_sweep.
Qed.

Lemma getAllLocations_evicts_stale_witness :
  JsMap.ok (activeLocations (twoPositions 50001)) /\
  valueOf getAllLocations (twoPositions 50001) = [bob] /\
  In alice (valueOf getAllLocations (twoPositions 29999)) /\
  ~ In alice (valueOf getAllLocations (twoPositions 30001)).
Proof.
  split; [apply twoPositions_ok|].
  split; [|split].
  - destruct (getAllLocations_evicts_stale (twoPositions 50001) (twoPositions_ok _))
      as (Hval & Hmap & _).
    rewrite Hval, Hmap. reflexivity.
  - destruct (getAllLocations_evicts_stale (twoPositions 29999) (twoPositions_ok _))
      as (_ & _ & _ & _ & Hin & _).
    apply (Hin "u1" alice); [left; reflexivity | reflexivity].
  - destruct (getAllLocations_evicts_stale (twoPositions 30001) (twoPositions_ok _))
      as (_ & _ & _ & _ & _ & Hout & _).
    apply (Hout alice). reflexivity.
Defined.

(** C7. At every state and clock value, [getLocationCount] returns the
    length of the list [getAllLocations] returns there, and the two leave
    the same state: both run the same eviction pass before reading the
    map. *)
Theorem getLocationCount_is_snapshot_length {N : JsNumber} (w : World) :
  valueOf getLocationCount w = Z.of_nat (List.length (valueOf getAllLocations w)) /\
  stateAfter getLocationCount w = stateAfter getAllLocations w /\
  stateAfter getLocationCount w = stateAfter cleanStaleLocations w.
Proof.
  unfold valueOf, stateAfter.
  rewrite getLocationCount_run, getAllLocations_run, cleanStaleLocations_run.
  cbn [fst snd]. unfold JsMap.size. now rewrite JsMapFacts.length_values.
Qed.

(** C6. [removeLocation] reports success at every state and for every
    id, present or absent; afterwards the id has no record, and a second
    call reports success again and leaves the state the first call
    left. *)
Theorem removeLocation_idempotent {N : JsNumber} (w : World) (userId : string) :
  let w' := stateAfter (removeLocation userId) w in
  valueOf (removeLocation userId) w = {| success := true; error := None |} /\
  JsMap.get userId (activeLocations w') = None /\
  valueOf (removeLocation userId) w' = {| success := true; error := None |} /\
  stateAfter (removeLocation userId) w' = w'.
Proof.
  unfold valueOf, stateAfter. rewrite !removeLocation_run. cbn [fst snd].
  repeat split.
  - apply JsMapFacts.get_delete_same.
  - unfold setActiveLocations. cbn [activeLocations policePins clock tick].
    now rewrite JsMapFacts.delete_delete.
Qed.

(** Removing an id that has no record changes nothing. *)
Lemma removeLocation_absent {N : JsNumber} (w : World) (userId : string) :
  JsMap.get userId (activeLocations w) = None ->
  stateAfter (removeLocation userId) w = w.
Proof.
  intros Hnone. unfold stateAfter. rewrite removeLocation_run. cbn [snd].
  apply JsMapFacts.get_None_notin in Hnone.
  unfold setActiveLocations. rewrite JsMapFacts.delete_absent by assumption.
  now destruct w.
Qed.

(** C5. [updateLocation] replaces: at every state, whatever record the
    id had before, the record stored for it after the call is made of the
    arguments of the call alone, with [lastUpdated] the reading of the
    clock the call makes for it.  The stored name is the given name when
    it is not empty, and ['User '] followed by the first four characters
    of the id when the name is absent or empty. *)
Theorem updateLocation_replaces {N : JsNumber} (w : World)
    (userId : string) (latitude longitude : number) (name : option string) :
  let w' := stateAfter (updateLocation userId latitude longitude name) w in
  valueOf (updateLocation userId latitude longitude name) w
    = {| success := true; error := None |} /\
  JsMap.get userId (activeLocations w') =
    Some {| loc_id := userId;
            loc_name := match name with
                        | None | Some "" => "User " ++ substring 0 4 userId
                        | Some given => given
                        end;
            loc_latitude := latitude;
            loc_longitude := longitude;
            lastUpdated := clock w (S (tick w)) |} /\
  nameOrDefault None userId = "User " ++ substring 0 4 userId /\
  nameOrDefault (Some "") userId = "User " ++ substring 0 4 userId.
Proof.
  unfold valueOf, stateAfter. rewrite updateLocation_run. cbn [fst snd activeLocations].
  repeat split.
  rewrite JsMapFacts.get_set_same. do 2 f_equal.
  destruct name as [[|c s]|]; reflexivity.
Qed.

(** The record [alice] is replaced by an update that gives no name: the
    name becomes the label derived from the id. *)
Example updateLocation_drops_old_name :
  JsMap.get "u1"
    (activeLocations
       (stateAfter (updateLocation "u1" 40%R (-73)%R None) (twoPositions 10))) =
  Some {| loc_id := "u1"; loc_name := "User u1";
          loc_latitude := 40%R; loc_longitude := (-73)%R; lastUpdated := 10 |}.
Proof.
  unfold stateAfter. rewrite updateLocation_run. cbn [snd activeLocations].
  now rewrite JsMapFacts.get_set_same.
Qed.

(** C10. [updateLocation] runs the eviction pass before it stores the
    new record: the registry after the call is the new record set into
    the entries of age at most 30000 ms.  Hence the record of every other
    id whose age is strictly more than 30000 ms is gone after the call,
    and the record of every other id of age at most 30000 ms is kept. *)
Theorem updateLocation_evicts_others {N : JsNumber} (w : World)
    (userId : string) (latitude longitude : number) (name : option string) :
  JsMap.ok (activeLocations w) ->
  let now := clock w (tick w) in
  let w' := stateAfter (updateLocation userId latitude longitude name) w in
  activeLocations w' =
    JsMap.set userId
      {| loc_id := userId; loc_name := nameOrDefault name userId;
         loc_latitude := latitude; loc_longitude := longitude;
         lastUpdated := clock w (S (tick w)) |}
      (filter (fun e => negb (now - lastUpdated (snd e) >? 30 * 1000))
         (activeLocations w)) /\
  (forall id r, id <> userId -> In (id, r) (activeLocations w) ->
     now - lastUpdated r > 30000 ->
     JsMap.get id (activeLocations w') = None) /\
  (forall id r, id <> userId -> In (id, r) (activeLocations w) ->
     now - lastUpdated r <= 30000 ->
     JsMap.get id (activeLocations w') = Some r).
Proof.
  intros Hok now w'. subst w'. unfold stateAfter. rewrite updateLocation_run.
  cbn [snd activeLocations]. rewrite sweptLocations_live by assumption. fold now.
  assert (Hlive : JsMap.ok (liveLocations now (activeLocations w)))
    by now apply JsMapFacts.ok_filter.
  split; [reflexivity|]. split.
  - intros id r Hne Hin Hage. rewrite JsMapFacts.get_set_other by assumption.
    destruct (JsMap.get id (liveLocations now (activeLocations w))) as [r'|] eqn:G;
      [|reflexivity].
    apply JsMapFacts.get_In, In_liveLocations in G as [Hin' Hage'].
    pose proof (JsMapFacts.In_get _ _ _ Hok Hin) as G1.
    pose proof (JsMapFacts.In_get _ _ _ Hok Hin') as G2.
    assert (r' = r) by congruence. subst r'. cbn [snd] in Hage'.
    unfold STALE_THRESHOLD in Hage'. lia.
  - intros id r Hne Hin Hage. rewrite JsMapFacts.get_set_other by assumption.
    apply JsMapFacts.In_get; [assumption|].
    apply In_liveLocations. split; [assumption|]. cbn [snd].
    unfold STALE_THRESHOLD. lia.
Qed.

Lemma updateLocation_evicts_others_witness :
  JsMap.ok (activeLocations (twoPositions 60000)) /\
  JsMap.get "u1"
    (activeLocations
       (stateAfter (updateLocation "u3" 1%R 2%R None) (twoPositions 60000))) = None /\
  JsMap.get "u2"
    (activeLocations
       (stateAfter (updateLocation "u3" 1%R 2%R None) (twoPositions 60000))) = Some bob.
Proof.
  split; [apply twoPositions_ok|].
  destruct (updateLocation_evicts_others (twoPositions 60000) "u3" 1%R 2%R None
              (twoPositions_ok _)) as (_ & Hgone & Hkept).
  split.
  - apply (Hgone "u1" alice); [discriminate | left; reflexivity | reflexivity].
  - apply (Hkept "u2" bob); [discriminate | right; left; reflexivity | discriminate].
Defined.

(** ** The pin registry *)

Lemma onePin_ok now : JsMap.ok (policePins (onePin now)).
Proof. unfold JsMap.ok. simpl. repeat constructor; simpl; intuition discriminate. Qed.

Lemma twoPins_ok now : JsMap.ok (policePins (twoPins now)).
Proof. unfold JsMap.ok. simpl. repeat constructor; simpl; intuition discriminate. Qed.

(** Against C1 as the specification words it: the registry holds the
    live pin ["a-1000"] of ["a"], 0 ms old, and the clock stays at 1000.
    The call of ["a"] for a point half the equator away is accepted, the
    id it makes is ["a-1000"] again, which is not fresh, and no pin is
    inserted: the registry still holds one pin, the new one in the place
    of the old. *)
Lemma accepted_call_reuses_live_pinId :
  JsMap.ok (policePins pinAt1000) /\
  JsMap.get (makePinId "a" 1000) (policePins pinAt1000)
    = Some {| pin_id := "a-1000"; pin_userId := "a"; pin_userName := "Ann";
              pin_latitude := 0%R; pin_longitude := 0%R; createdAt := 1000 |} /\
  valueOf (addPolicePin "a" "Ann" 0%R 180%R) pinAt1000 = accepted /\
  policePins (stateAfter (addPolicePin "a" "Ann" 0%R 180%R) pinAt1000)
    = [("a-1000",
        {| pin_id := "a-1000"; pin_userId := "a"; pin_userName := "Ann";
           pin_latitude := 0%R; pin_longitude := 180%R; createdAt := 1000 |})].
Proof.
  assert (Hok : JsMap.ok (policePins pinAt1000)).
  { unfold JsMap.ok. simpl. repeat constructor. simpl. tauto. }
  assert (Hs : sweptPins pinAt1000 = policePins pinAt1000).
  { rewrite sweptPins_live by assumption. reflexivity. }
  assert (Hfar : hasPinWithin100 "a" 0%R 180%R (JsMap.values (sweptPins pinAt1000)) = false).
  { rewrite Hs. cbn [pinAt1000 policePins JsMap.values map snd hasPinWithin100
                     pin_userId pin_latitude pin_longitude].
    rewrite String.eqb_refl. now rewrite far_antipodes. }
  refine (conj Hok (conj eq_refl (conj _ _))).
  - unfold valueOf. rewrite addPolicePin_run, Hfar. reflexivity.
  - unfold stateAfter. rewrite addPolicePin_run, Hfar, Hs. reflexivity.
Qed.

(** C1, amended.  [addPolicePin] first evicts every pin whose age
    [now - createdAt] is strictly more than 1200000 ms (20 minutes), so a
    pin aged exactly 20 minutes stays.  It is rejected with the too-close
    result if and only if, among the pins that remain, one whose creator
    is the caller lies at a Haversine distance (Earth radius 6371000)
    strictly less than 100 from the candidate; a pin at distance exactly
    100 does not cause rejection.  When rejected the registry is left as
    evicted.  Otherwise the result is success and the pin, with
    [createdAt] the reading of the clock made for it, is set under the id
    made of the caller, a dash and the reading of the clock in
    milliseconds: every pin stored under another id stays, the pin is a
    new, last entry of the registry when no live pin has that id, and it
    takes the place of the live pin that has it otherwise. *)
Theorem addPolicePin_admission {N : JsNumber} (w : World)
    (userId userName : string) (latitude longitude : number) :
  JsMap.ok (policePins w) ->
  let now := clock w (tick w) in
  let live := filter (fun e => negb (now - createdAt (snd e) >? 20 * 60 * 1000))
                (policePins w) in
  let haversine := fun lat1 lon1 lat2 lon2 : number =>
    let phi1 := (lat1 * num_PI / num_of_Z 180)%num in
    let phi2 := (lat2 * num_PI / num_of_Z 180)%num in
    let dphi := ((lat2 - lat1) * num_PI / num_of_Z 180)%num in
    let dlambda := ((lon2 - lon1) * num_PI / num_of_Z 180)%num in
    let a := (num_sin (dphi / num_of_Z 2) * num_sin (dphi / num_of_Z 2) +
              num_cos phi1 * num_cos phi2 *
              num_sin (dlambda / num_of_Z 2) * num_sin (dlambda / num_of_Z 2))%num in
    (num_of_Z 6371000 *
     (num_of_Z 2 * num_atan2 (num_sqrt a) (num_sqrt (num_of_Z 1 - a))))%num in
  let tooClose :=
    {| success := false;
       error := Some "Cannot place pin within 100 meters of your existing pins" |} in
  let r := valueOf (addPolicePin userId userName latitude longitude) w in
  let w' := stateAfter (addPolicePin userId userName latitude longitude) w in
  let id := userId ++ "-" ++ NilEmpty.string_of_int (Z.to_int (clock w (S (tick w)))) in
  let pin := {| pin_id := id; pin_userId := userId; pin_userName := userName;
                pin_latitude := latitude; pin_longitude := longitude;
                createdAt := clock w (S (S (tick w))) |} in
  (forall e, In e live <->
     In e (policePins w) /\ now - createdAt (snd e) <= 1200000) /\
  (r = tooClose <->
     exists p, In p (JsMap.values live) /\ pin_userId p = userId /\
       (haversine (pin_latitude p) (pin_longitude p) latitude longitude
          <? num_of_Z 100)%num = true) /\
  (r <> tooClose -> r = {| success := true; error := None |}) /\
  (r = tooClose -> policePins w' = live) /\
  (r = {| success := true; error := None |} ->
     policePins w' = JsMap.set id pin live /\
     JsMap.get id (policePins w') = Some pin /\
     (forall k, k <> id -> JsMap.get k (policePins w') = JsMap.get k live) /\
     (JsMap.get id live = None -> policePins w' = (live ++ [(id, pin)])%list) /\
     (JsMap.get id live <> None -> JsMap.keys (policePins w') = JsMap.keys live)) /\
  ((forall p, In p (JsMap.values live) -> pin_userId p = userId ->
      haversine (pin_latitude p) (pin_longitude p) latitude longitude
        = num_of_Z 100) ->
     r = {| success := true; error := None |}).
Proof.
  intros Hok now live haversine tooClose r w' id pin.
  change haversine with (calculateDistance (N := N)).
  change tooClose with rejected.
  change id with (makePinId userId (clock w (S (tick w)))) in *.
  assert (Hlive : sweptPins w = live) by (now rewrite sweptPins_live).
  subst r w'. unfold valueOf, stateAfter. rewrite addPolicePin_run, Hlive.
  pose proof (hasPinWithin100_true userId latitude longitude (JsMap.values live)) as Hscan.
  unfold ownPinWithin100 in Hscan.
  split.
  { intros e. subst live. change (filter _ (policePins w)) with (livePins now (policePins w)).
    rewrite In_livePins. unfold POLICE_PIN_THRESHOLD. tauto. }
  destruct (hasPinWithin100 userId latitude longitude (JsMap.values live)) eqn:Hs;
    cbn [fst snd policePins].
  - refine (conj _ (conj _ (conj _ (conj _ _)))).
    + split; [intros _; now apply Hscan | reflexivity].
    + intros H. now elim H.
    + reflexivity.
    + discriminate.
    + intros Hall. destruct Hscan as [Hscan _].
      destruct (Hscan eq_refl) as (p & Hin & Hu & Hd). exfalso.
      rewrite (Hall p Hin Hu) in Hd. rewrite num_ltb_irrefl in Hd. discriminate.
  - refine (conj _ (conj _ (conj _ (conj _ _)))).
    + split; [discriminate|]. intros Hex. apply Hscan in Hex. discriminate.
    + reflexivity.
    + discriminate.
    + intros _. refine (conj eq_refl (conj _ (conj _ (conj _ _)))).
      * apply JsMapFacts.get_set_same.
      * intros k Hk. now apply JsMapFacts.get_set_other.
      * intros Hnone. apply JsMapFacts.set_absent.
        now apply JsMapFacts.get_None_notin.
      * intros Hsome. apply JsMapFacts.keys_set.
        destruct (in_dec string_dec (makePinId userId (clock w (S (tick w))))
                    (JsMap.keys live)) as [Hin|Hnotin]; [assumption|].
        apply JsMapFacts.get_None_notin in Hnotin. contradiction.
    + reflexivity.
Qed.

Lemma addPolicePin_admission_witness :
  JsMap.ok (policePins (onePin 1200000)) /\
  valueOf (addPolicePin "a" "Ann" 0%R 0%R) (onePin 1200000) = rejected /\
  policePins (stateAfter (addPolicePin "a" "Ann" 0%R 0%R) (onePin 1200000))
    = [("a-0", pinA)] /\
  valueOf (addPolicePin "a" "Ann" 0%R 180%R) (onePin 1200000) = accepted /\
  policePins (stateAfter (addPolicePin "a" "Ann" 0%R 180%R) (onePin 1200000))
    = [("a-0", pinA);
       ("a-1200000",
        {| pin_id := "a-1200000"; pin_userId := "a"; pin_userName := "Ann";
           pin_latitude := 0%R; pin_longitude := 180%R; createdAt := 1200000 |})].
Proof.
  split; [apply onePin_ok|].
  destruct (addPolicePin_admission (onePin 1200000) "a" "Ann" 0%R 0%R (onePin_ok _))
    as (Hlive & Hrej & _ & Hkeep & _).
  assert (Hr : valueOf (addPolicePin "a" "Ann" 0%R 0%R) (onePin 1200000) = rejected).
  { apply Hrej. exists pinA. split; [|split].
    - apply in_map_iff. exists ("a-0", pinA). split; [reflexivity|].
      apply Hlive. split; [left; reflexivity | discriminate].
    - reflexivity.
    - apply near_same. }
  split; [exact Hr|]. split; [rewrite (Hkeep Hr); reflexivity|].
  destruct (addPolicePin_admission (onePin 1200000) "a" "Ann" 0%R 180%R (onePin_ok _))
    as (_ & Hrej' & Hacc & _ & Hset & _).
  assert (Ha : valueOf (addPolicePin "a" "Ann" 0%R 180%R) (onePin 1200000) = accepted).
  { apply Hacc. intros Hr'. apply Hrej' in Hr' as (p & Hin & _ & Hd).
    destruct Hin as [<-|[]].
    change (num_ltb (calculateDistance (N := RealNumber) 0%R 0%R 0%R 180%R)
              (num_of_Z 100) = true) in Hd.
    rewrite far_antipodes in Hd. discriminate. }
  split; [exact Ha|].
  destruct (Hset Ha) as (_ & _ & _ & Hnew & _).
  rewrite Hnew; reflexivity.
Defined.

Lemma onePin_rejects :
  valueOf (addPolicePin "a" "Ann" 0%R 0%R) (onePin 0) = rejected.
Proof.
  unfold valueOf. rewrite addPolicePin_run.
  assert (H : hasPinWithin100 "a" 0%R 0%R (JsMap.values (sweptPins (onePin 0))) = true).
  { apply hasPinWithin100_true. exists pinA. split; [|split].
    - rewrite sweptPins_live by apply onePin_ok.
      apply in_map_iff. exists ("a-0", pinA). split; [reflexivity|].
      apply In_livePins. split; [left; reflexivity | discriminate].
    - reflexivity.
    - apply near_same. }
  rewrite H. reflexivity.
Qed.

(** C4. A call of [addPolicePin] that does not succeed returns the
    structured result [{ success: false, error: reason }] as its value
    (the operation is a total function: it has no other way out), creates
    no pin, and leaves exactly the state the eviction pass alone leaves:
    every pin of the registry afterwards was in it before, and the
    positions are untouched. *)
Theorem addPolicePin_fail_closed {N : JsNumber} (w : World)
    (userId userName : string) (latitude longitude : number) :
  let r := valueOf (addPolicePin userId userName latitude longitude) w in
  let w' := stateAfter (addPolicePin userId userName latitude longitude) w in
  success r = false ->
  r = {| success := false;
         error := Some "Cannot place pin within 100 meters of your existing pins" |} /\
  w' = stateAfter cleanStalePolicePins w /\
  (forall e, In e (policePins w') -> In e (policePins w)) /\
  activeLocations w' = activeLocations w.
Proof.
  intros r w'. subst r w'. unfold valueOf, stateAfter.
  rewrite addPolicePin_run, cleanStalePolicePins_run.
  destruct (hasPinWithin100 _ _ _ _); cbn [fst snd success]; [|discriminate].
  intros _. repeat split.
  cbn [policePins]. intros e. unfold sweptPins.
  rewrite JsMapFacts.sweep_as_filter. intros He. now apply filter_In in He.
Qed.

Lemma addPolicePin_fail_closed_witness :
  success (valueOf (addPolicePin "a" "Ann" 0%R 0%R) (onePin 0)) = false /\
  stateAfter (addPolicePin "a" "Ann" 0%R 0%R) (onePin 0)
    = stateAfter cleanStalePolicePins (onePin 0).
Proof.
  assert (H : success (valueOf (addPolicePin "a" "Ann" 0%R 0%R) (onePin 0)) = false)
    by (rewrite onePin_rejects; reflexivity).
  split; [exact H|].
  exact (proj1 (proj2 (addPolicePin_fail_closed (onePin 0) "a" "Ann" 0%R 0%R H))).
Defined.

Lemma addPolicePin_value {N : JsNumber} (w : World)
    (userId userName : string) (latitude longitude : number) :
  valueOf (addPolicePin userId userName latitude longitude) w =
  if hasPinWithin100 userId latitude longitude (JsMap.values (sweptPins w))
  then rejected else accepted.
Proof.
  unfold valueOf. rewrite addPolicePin_run.
  now destruct (hasPinWithin100 _ _ _ _).
Qed.

(** Pins of another creator are invisible to the admission loop. *)
Lemma own_pins_without {N : JsNumber} (A B : string) (stale : PolicePin -> bool)
    (pins : JsMap.t PolicePin) :
  B <> A ->
  filter (fun p => String.eqb (pin_userId p) B)
    (JsMap.values (keep stale
       (filter (fun e => negb (String.eqb (pin_userId (snd e)) A)) pins)))
  = filter (fun p => String.eqb (pin_userId p) B) (JsMap.values (keep stale pins)).
Proof.
  intros Hne. unfold keep, JsMap.values.
  induction pins as [|[k p] pins IH]; [reflexivity|].
  cbn [filter snd]. destruct (String.eqb_spec (pin_userId p) A) as [HA|HA]; cbn [negb].
  - destruct (stale p); cbn [negb map filter snd]; [exact IH|].
    destruct (String.eqb_spec (pin_userId p) B); [congruence | exact IH].
  - cbn [filter snd]. destruct (stale p); cbn [negb map filter snd]; [exact IH|].
    destruct (String.eqb (pin_userId p) B); now rewrite IH.
Qed.

(** Against C3 as the specification words it: ["a"] holds the live pin [pinA],
    and the call of the other creator ["b"] at the point of [pinA] is
    rejected, because ["b"] holds a live pin of its own there. *)
Lemma other_creator_rejected_near_own_pin :
  In pinA (valueOf getAllPolicePins (twoPins 0)) /\
  pin_userId pinA = "a" /\ "b" <> "a" /\
  valueOf (addPolicePin "b" "Ben" 0%R 0%R) (twoPins 0) = rejected.
Proof.
  assert (Hlive : sweptPins (twoPins 0) = [("a-0", pinA); ("b-0", pinB)]).
  { rewrite sweptPins_live by apply twoPins_ok. reflexivity. }
  split; [|split; [reflexivity | split; [discriminate|]]].
  - unfold valueOf. rewrite getAllPolicePins_run, Hlive. left. reflexivity.
  - unfold valueOf. rewrite addPolicePin_run.
    assert (H : hasPinWithin100 "b" 0%R 0%R (JsMap.values (sweptPins (twoPins 0))) = true).
    { apply hasPinWithin100_true. exists pinB. rewrite Hlive.
      split; [right; left; reflexivity | split; [reflexivity | apply near_same]]. }
    rewrite H. reflexivity.
Qed.

(** C3, amended.  The exclusion check is scoped per creator.  In every
    state in which [A] holds a live pin [pA], a call by another subject
    [B] is never rejected on account of the pins of [A]: its result is the
    result of the same call in the state without the pins of [A], and it
    succeeds at any coordinates, whatever their distance to the pins of
    [A], provided [B] itself holds no live pin less than 100 from them;
    the same call made by [A] at a point less than 100 from [pA] is
    rejected. *)
Theorem addPolicePin_per_creator {N : JsNumber} (w : World)
    (A B userName : string) (pA : PolicePin) (latitude longitude : number) :
  JsMap.ok (policePins w) ->
  let now := clock w (tick w) in
  In pA (JsMap.values (policePins w)) -> pin_userId pA = A ->
  now - createdAt pA <= 1200000 ->
  B <> A ->
  let withoutA :=
    setPolicePins
      (filter (fun e => negb (String.eqb (pin_userId (snd e)) A)) (policePins w)) w in
  valueOf (addPolicePin B userName latitude longitude) w
    = valueOf (addPolicePin B userName latitude longitude) withoutA /\
  ((forall p, In p (JsMap.values (policePins w)) ->
      now - createdAt p <= 1200000 -> pin_userId p = B ->
      (calculateDistance (pin_latitude p) (pin_longitude p) latitude longitude
         <? num_of_Z 100)%num = false) ->
   valueOf (addPolicePin B userName latitude longitude) w
     = {| success := true; error := None |}) /\
  ((calculateDistance (pin_latitude pA) (pin_longitude pA) latitude longitude
      <? num_of_Z 100)%num = true ->
   valueOf (addPolicePin A userName latitude longitude) w
     = {| success := false; error := Some TOO_CLOSE |}).
Proof.
  intros Hok now HpA HA Hage Hne withoutA.
  rewrite !addPolicePin_value.
  assert (Hok' : JsMap.ok (policePins withoutA)) by now apply JsMapFacts.ok_filter.
  rewrite (sweptPins_live w Hok), (sweptPins_live withoutA Hok').
  cbn [withoutA setPolicePins clock tick policePins]. fold now.
  split; [|split].
  - rewrite (hasPinWithin100_own B _ _ (JsMap.values (livePins now (policePins w)))).
    rewrite (hasPinWithin100_own B _ _ (JsMap.values (livePins now (filter _ _)))).
    unfold livePins. rewrite own_pins_without by assumption. reflexivity.
  - intros Hfar.
    destruct (hasPinWithin100 B latitude longitude _) eqn:Hs; [|reflexivity].
    apply hasPinWithin100_true in Hs as (p & Hin & Hu & Hd). exfalso.
    apply in_map_iff in Hin as [e [He Hin]]. apply In_livePins in Hin as [Hin Hlive].
    subst p. rewrite Hfar in Hd; try assumption; [discriminate|].
    now apply in_map.
  - intros Hnear.
    assert (Hs : hasPinWithin100 A latitude longitude
                   (JsMap.values (livePins now (policePins w))) = true).
    { apply hasPinWithin100_true. exists pA. split; [|tauto].
      apply in_map_iff in HpA as [e [He Hin]]. apply in_map_iff. exists e.
      split; [assumption|]. apply In_livePins. subst pA. tauto. }
    rewrite Hs. reflexivity.
Qed.

Lemma addPolicePin_per_creator_witness :
  JsMap.ok (policePins (onePin 0)) /\
  In pinA (JsMap.values (policePins (onePin 0))) /\
  "b" <> "a" /\
  valueOf (addPolicePin "b" "Ben" 0%R 0%R) (onePin 0) = accepted /\
  valueOf (addPolicePin "a" "Ann" 0%R 0%R) (onePin 0) = rejected.
Proof.
  assert (Hin : In pinA (JsMap.values (policePins (onePin 0)))) by (left; reflexivity).
  assert (Hne : "b" <> "a") by discriminate.
  assert (Hage : clock (onePin 0) (tick (onePin 0)) - createdAt pinA <= 1200000)
    by discriminate.
  split; [apply onePin_ok|]. split; [exact Hin|]. split; [exact Hne|].
  split.
  - destruct (addPolicePin_per_creator (onePin 0) "a" "b" "Ben" pinA 0%R 0%R
                (onePin_ok _) Hin eq_refl Hage Hne) as (_ & Hb & _).
    apply Hb. intros p [<-|[]] _ Hu. discriminate Hu.
  - destruct (addPolicePin_per_creator (onePin 0) "a" "b" "Ann" pinA 0%R 0%R
                (onePin_ok _) Hin eq_refl Hage Hne) as (_ & _ & Ha).
    apply Ha. apply near_same.
Defined.

(** *** Pin ids *)

Lemma string_of_uint_noDash (d : Decimal.uint) :
  hasDash (NilEmpty.string_of_uint d) = false.
Proof. induction d; simpl; auto. Qed.

Lemma hasDash_app_dash (a b : string) : hasDash (a ++ String "-" b) = true.
Proof.
  induction a as [|c a IH]; simpl in *; [reflexivity|].
  rewrite IH. apply orb_true_r.
Qed.

(** The text after the last dash, and the text before it, are determined. *)
Lemma split_at_last_dash (a a' d d' : string) :
  hasDash d = false -> hasDash d' = false ->
  a ++ "-" ++ d = a' ++ "-" ++ d' -> a = a' /\ d = d'.
Proof.
  intros Hd Hd'. revert a'. induction a as [|c a IH]; intros [|c' a']; simpl; intros E.
  - injection E as E. now split.
  - injection E as Ec E. subst d. now rewrite hasDash_app_dash in Hd.
  - injection E as Ec E. subst d'. now rewrite hasDash_app_dash in Hd'.
  - injection E as Ec E. destruct (IH _ E) as [-> ->]. now subst c'.
Qed.

(** The id determines the creator and the instant, the instant being a
    time since the epoch. *)
Lemma makePinId_inj (u u' : string) (t t' : Z) :
  0 <= t -> 0 <= t' ->
  makePinId u t = makePinId u' t' -> u = u' /\ t = t'.
Proof.
  intros Ht Ht' E. unfold makePinId in E.
  assert (Hnd : forall z, 0 <= z -> hasDash (NilEmpty.string_of_int (Z.to_int z)) = false).
  { intros [|p|p] Hz; simpl; try apply string_of_uint_noDash; [reflexivity | lia]. }
  apply split_at_last_dash in E as [Hu Hs]; auto.
  split; [assumption|].
  assert (Hi : Z.to_int t = Z.to_int t').
  { pose proof (NilEmpty.isi (Z.to_int t)) as H1.
    pose proof (NilEmpty.isi (Z.to_int t')) as H2.
    rewrite Hs in H1. congruence. }
  rewrite <- (DecimalZ.of_to t), <- (DecimalZ.of_to t'). now rewrite Hi.
Qed.

(** Against C8 as the specification words it: under a clock that stays at
    1000, ["a"] places a pin at (0, 0) and then a pin at (0, 180), half
    the equator away.  Both calls succeed, both pins get the id
    ["a-1000"], and the second takes the place of the first: the registry
    holds one pin. *)
Lemma same_instant_same_pinId :
  let w0 := initialWorld (N := RealNumber) (fun _ => 1000) in
  let w1 := stateAfter (addPolicePin "a" "Ann" 0%R 0%R) w0 in
  let w2 := stateAfter (addPolicePin "a" "Ann" 0%R 180%R) w1 in
  valueOf (addPolicePin "a" "Ann" 0%R 0%R) w0 = accepted /\
  valueOf (addPolicePin "a" "Ann" 0%R 180%R) w1 = accepted /\
  JsMap.keys (policePins w1) = ["a-1000"] /\
  JsMap.keys (policePins w2) = ["a-1000"] /\
  valueOf getAllPolicePins w2 =
    [ {| pin_id := "a-1000"; pin_userId := "a"; pin_userName := "Ann";
         pin_latitude := 0%R; pin_longitude := 180%R; createdAt := 1000 |} ].
Proof.
  intros w0 w1 w2.
  assert (H1 : addPolicePin "a" "Ann" 0%R 0%R w0 =
               (accepted,
                {| activeLocations := JsMap.empty;
                   policePins := [("a-1000", newPin "a" "Ann" 0%R 0%R 1000 1000)];
                   clock := fun _ => 1000; tick := 3 |})).
  { rewrite addPolicePin_run. reflexivity. }
  assert (Hw1 : w1 = {| activeLocations := JsMap.empty;
                        policePins := [("a-1000", newPin "a" "Ann" 0%R 0%R 1000 1000)];
                        clock := fun _ => 1000; tick := 3 |}).
  { subst w1. unfold stateAfter. now rewrite H1. }
  assert (Hok1 : JsMap.ok (policePins w1)).
  { rewrite Hw1. unfold JsMap.ok. simpl. repeat constructor. simpl. tauto. }
  assert (Hs1 : sweptPins w1 = [("a-1000", newPin "a" "Ann" 0%R 0%R 1000 1000)]).
  { rewrite sweptPins_live by assumption. rewrite Hw1. reflexivity. }
  assert (Hfar : hasPinWithin100 "a" 0%R 180%R (JsMap.values (sweptPins w1)) = false).
  { rewrite Hs1. cbn [JsMap.values map snd hasPinWithin100 newPin pin_userId
                      pin_latitude pin_longitude].
    rewrite String.eqb_refl. now rewrite far_antipodes. }
  assert (H2 : addPolicePin "a" "Ann" 0%R 180%R w1 =
               (accepted,
                {| activeLocations := JsMap.empty;
                   policePins := [("a-1000", newPin "a" "Ann" 0%R 180%R 1000 1000)];
                   clock := fun _ => 1000; tick := 6 |})).
  { rewrite addPolicePin_run, Hfar, Hs1, Hw1. reflexivity. }
  assert (Hw2 : w2 = {| activeLocations := JsMap.empty;
                        policePins := [("a-1000", newPin "a" "Ann" 0%R 180%R 1000 1000)];
                        clock := fun _ => 1000; tick := 6 |}).
  { subst w2. unfold stateAfter. now rewrite H2. }
  refine (conj _ (conj _ (conj _ (conj _ _)))).
  - unfold valueOf. now rewrite H1.
  - unfold valueOf. now rewrite H2.
  - now rewrite Hw1.
  - now rewrite Hw2.
  - unfold valueOf. rewrite getAllPolicePins_run.
    rewrite sweptPins_live by (rewrite Hw2; unfold JsMap.ok; simpl; repeat constructor; simpl; tauto).
    rewrite Hw2. reflexivity.
Qed.

(** C8, amended.  The id of a pin is the creator, a dash, and the
    instant in milliseconds read from the clock, so two ids made at
    instants since the epoch differ whenever the creators differ or the
    instants differ.  A successful call therefore does not replace a live
    pin that was admitted for another creator or at another instant:
    after the call that pin is still stored under its id, next to the new
    pin under the new id. *)
Theorem addPolicePin_keeps_other_ids {N : JsNumber} (w : World)
    (u1 : string) (i1 : Z) (p1 : PolicePin)
    (u2 userName : string) (latitude longitude : number) :
  JsMap.ok (policePins w) ->
  let now := clock w (tick w) in
  let i2 := clock w (S (tick w)) in
  let w' := stateAfter (addPolicePin u2 userName latitude longitude) w in
  JsMap.get (makePinId u1 i1) (policePins w) = Some p1 ->
  now - createdAt p1 <= 1200000 ->
  valueOf (addPolicePin u2 userName latitude longitude) w
    = {| success := true; error := None |} ->
  0 <= i1 -> 0 <= i2 -> u1 <> u2 \/ i1 <> i2 ->
  makePinId u1 i1 <> makePinId u2 i2 /\
  JsMap.get (makePinId u1 i1) (policePins w') = Some p1 /\
  JsMap.get (makePinId u2 i2) (policePins w') =
    Some {| pin_id := makePinId u2 i2; pin_userId := u2; pin_userName := userName;
            pin_latitude := latitude; pin_longitude := longitude;
            createdAt := clock w (S (S (tick w))) |}.
Proof.
  intros Hok now i2 w' Hget Hage Hacc Hi1 Hi2 Hdiff.
  assert (Hne : makePinId u1 i1 <> makePinId u2 i2).
  { intros E. apply makePinId_inj in E as [Eu Ei]; tauto. }
  rewrite addPolicePin_value in Hacc.
  subst w'. unfold stateAfter. rewrite addPolicePin_run.
  destruct (hasPinWithin100 _ _ _ _); [discriminate|].
  cbn [snd policePins]. fold i2. split; [assumption|]. split.
  - rewrite JsMapFacts.get_set_other by assumption.
    rewrite sweptPins_live by assumption.
    apply JsMapFacts.In_get; [now apply JsMapFacts.ok_filter|].
    apply In_livePins. split; [now apply JsMapFacts.get_In|].
    cbn [snd]. unfold POLICE_PIN_THRESHOLD. fold now. lia.
  - apply JsMapFacts.get_set_same.
Qed.

Lemma addPolicePin_keeps_other_ids_witness :
  JsMap.ok (policePins (onePin 5)) /\
  JsMap.get "a-0" (policePins (stateAfter (addPolicePin "b" "Ben" 0%R 0%R) (onePin 5)))
    = Some pinA /\
  JsMap.get "b-5" (policePins (stateAfter (addPolicePin "b" "Ben" 0%R 0%R) (onePin 5)))
    = Some {| pin_id := "b-5"; pin_userId := "b"; pin_userName := "Ben";
              pin_latitude := 0%R; pin_longitude := 0%R; createdAt := 5 |}.
Proof.
  split; [apply onePin_ok|].
  assert (Hacc : valueOf (addPolicePin "b" "Ben" 0%R 0%R) (onePin 5) = accepted).
  { rewrite addPolicePin_value.
    rewrite sweptPins_live by apply onePin_ok. reflexivity. }
  destruct (addPolicePin_keeps_other_ids (onePin 5) "a" 0 pinA "b" "Ben" 0%R 0%R
              (onePin_ok _) eq_refl) as (_ & Hold & Hnew).
  - discriminate.
  - exact Hacc.
  - discriminate.
  - discriminate.
  - left. discriminate.
  - split; [exact Hold | exact Hnew].
Defined.

(** *** Two calls in a row

    A call runs to its end before the next one starts.  When a creator's
    call has succeeded, the next call of the same creator for a point
    less than 100 from the first, made while the first pin is live, is
    rejected. *)
Lemma addPolicePin_then_nearby_rejected {N : JsNumber} (w : World)
    (userId name1 name2 : string) (lat1 lon1 lat2 lon2 : number) :
  JsMap.ok (policePins w) ->
  let w1 := stateAfter (addPolicePin userId name1 lat1 lon1) w in
  valueOf (addPolicePin userId name1 lat1 lon1) w = accepted ->
  clock w1 (tick w1) - clock w (S (S (tick w))) <= 1200000 ->
  (calculateDistance lat1 lon1 lat2 lon2 <? num_of_Z 100)%num = true ->
  valueOf (addPolicePin userId name2 lat2 lon2) w1 = rejected.
Proof.
  intros Hok w1 Hacc Hage Hnear.
  rewrite addPolicePin_value in Hacc.
  assert (Hw1 : w1 =
    {| activeLocations := activeLocations w;
       policePins :=
         JsMap.set (makePinId userId (clock w (S (tick w))))
           (newPin userId name1 lat1 lon1
              (clock w (S (tick w))) (clock w (S (S (tick w)))))
           (sweptPins w);
       clock := clock w; tick := S (S (S (tick w))) |}).
  { subst w1. unfold stateAfter. rewrite addPolicePin_run.
    destruct (hasPinWithin100 _ _ _ _); [discriminate | reflexivity]. }
  assert (Hok1 : JsMap.ok (policePins w1)).
  { rewrite Hw1. cbn [policePins]. apply JsMapFacts.ok_set.
    now apply JsMapFacts.ok_sweep. }
  rewrite addPolicePin_value.
  assert (Hs : hasPinWithin100 userId lat2 lon2 (JsMap.values (sweptPins w1)) = true).
  { apply hasPinWithin100_true.
    exists (newPin userId name1 lat1 lon1
              (clock w (S (tick w))) (clock w (S (S (tick w))))).
    split; [|split; [reflexivity | exact Hnear]].
    rewrite sweptPins_live by assumption.
    apply in_map_iff. eexists (_, _). split; [reflexivity|].
    apply In_livePins. split.
    - rewrite Hw1. cbn [policePins]. apply JsMapFacts.get_In, JsMapFacts.get_set_same.
    - cbn [snd newPin createdAt]. unfold POLICE_PIN_THRESHOLD. lia. }
  now rewrite Hs.
Qed.

(** *** The maps keep unique keys

    The module starts with two empty maps, and every exported operation
    leaves the keys of both maps unique. *)

Lemma initialWorld_ok {N : JsNumber} (c : nat -> Z) : WorldOk (initialWorld c).
Proof. split; apply JsMapFacts.ok_empty. Qed.

Lemma updateLocation_ok {N : JsNumber} (w : World) userId latitude longitude name :
  WorldOk w -> WorldOk (stateAfter (updateLocation userId latitude longitude name) w).
Proof.
  intros [Hl Hp]. unfold stateAfter. rewrite updateLocation_run. split; cbn; [|assumption].
  apply JsMapFacts.ok_set. now apply JsMapFacts.ok_sweep.
Qed.

Lemma removeLocation_ok {N : JsNumber} (w : World) userId :
  WorldOk w -> WorldOk (stateAfter (removeLocation userId) w).
Proof.
  intros [Hl Hp]. unfold stateAfter. rewrite removeLocation_run. split; cbn; [|assumption].
  now apply JsMapFacts.ok_delete.
Qed.

Lemma getAllLocations_ok {N : JsNumber} (w : World) :
  WorldOk w -> WorldOk (stateAfter getAllLocations w).
Proof.
  intros [Hl Hp]. unfold stateAfter. rewrite getAllLocations_run. split; cbn; [|assumption].
  now apply JsMapFacts.ok_sweep.
Qed.

Lemma getLocationCount_ok {N : JsNumber} (w : World) :
  WorldOk w -> WorldOk (stateAfter getLocationCount w).
Proof.
  intros [Hl Hp]. unfold stateAfter. rewrite getLocationCount_run. split; cbn; [|assumption].
  now apply JsMapFacts.ok_sweep.
Qed.

Lemma addPolicePin_ok {N : JsNumber} (w : World) userId userName latitude longitude :
  WorldOk w -> WorldOk (stateAfter (addPolicePin userId userName latitude longitude) w).
Proof.
  intros [Hl Hp]. unfold stateAfter. rewrite addPolicePin_run.
  destruct (hasPinWithin100 _ _ _ _); split; cbn; try assumption.
  - now apply JsMapFacts.ok_sweep.
  - apply JsMapFacts.ok_set. now apply JsMapFacts.ok_sweep.
Qed.

Lemma getAllPolicePins_ok {N : JsNumber} (w : World) :
  WorldOk w -> WorldOk (stateAfter getAllPolicePins w).
Proof.
  intros [Hl Hp]. unfold stateAfter. rewrite getAllPolicePins_run. split; cbn; [assumption|].
  now apply JsMapFacts.ok_sweep.
Qed.

Lemma reachable_ok {N : JsNumber} (w : World) : reachable w -> WorldOk w.
Proof.
  induction 1;
    auto using initialWorld_ok, updateLocation_ok, removeLocation_ok,
      getAllLocations_ok, getLocationCount_ok, addPolicePin_ok, getAllPolicePins_ok.
Qed.

(** ** Further properties of the store *)

(** *** More facts about [JsMap] *)

Module JsMapMore.
Import JsMap.

Section Facts.
Context {V : Type}.
Implicit Types (m : JsMap.t V) (k : string) (v : V).

Lemma In_set k v m e : In e (set k v m) -> e = (k, v) \/ In e m.
Proof.
  induction m as [|[k' v'] m IH]; simpl.
  - intros [<-|[]]. now left.
  - destruct (String.eqb k' k); simpl.
    + intros [<-|Hin]; [now left | right; now right].
    + intros [<-|Hin]; [right; now left|]. destruct (IH Hin); auto.
Qed.

Lemma In_delete k m e : In e (delete k m) -> In e m /\ fst e <> k.
Proof.
  unfold delete. rewrite filter_In. intros [Hin Hk]. split; [assumption|].
  intros E. rewrite E, String.eqb_refl in Hk. discriminate.
Qed.

Lemma In_sweep (stale : V -> bool) es m e : In e (sweep stale es m) -> In e m.
Proof. rewrite JsMapFacts.sweep_as_filter, filter_In. tauto. Qed.

Lemma get_delete_other k k' m : k' <> k -> get k' (delete k m) = get k' m.
Proof.
  intros Hne. unfold delete. induction m as [|[k0 v0] m IH]; simpl; [reflexivity|].
  destruct (String.eqb_spec k0 k) as [->|Hk0]; simpl.
  - destruct (String.eqb_spec k k'); [congruence | exact IH].
  - destruct (String.eqb k0 k'); [reflexivity | exact IH].
Qed.

Lemma length_set k v m :
  List.length (set k v m) =
  match get k m with
  | Some _ => List.length m
  | None => S (List.length m)
  end.
Proof.
  induction m as [|[k' v'] m IH]; simpl; [reflexivity|].
  destruct (String.eqb k' k); simpl; [reflexivity|].
  rewrite IH. now destruct (get k m).
Qed.

Lemma keep_keep (stale : V -> bool) m : keep stale (keep stale m) = keep stale m.
Proof.
  unfold keep. rewrite JsMapFacts.filter_filter. apply filter_ext.
  intros e. now destruct (stale (snd e)).
Qed.

(** What is not stale for [stale1] among what [stale2] has kept was in
    the map. *)
Lemma In_keep_keep (stale1 stale2 : V -> bool) m e :
  In e (keep stale1 (keep stale2 m)) -> In e (keep stale2 m).
Proof. intros H. now apply JsMapFacts.In_keep in H. Qed.

End Facts.
End JsMapMore.

(** *** The pin snapshot *)

(** X1. A pin snapshot evicts, as an effect of the read, every pin whose
    age [now - createdAt] is strictly more than 1200000 ms, returns the
    pins that remain in the order of the map, and leaves the positions
    alone.  A pin created at [t0] is returned by a read at
    [t0 + 1200000] and is not returned by a read at [t0 + 1200001]. *)
Theorem getAllPolicePins_evicts_stale {N : JsNumber} (w : World) :
  JsMap.ok (policePins w) ->
  let now := clock w (tick w) in
  let w' := stateAfter getAllPolicePins w in
  valueOf getAllPolicePins w = JsMap.values (policePins w') /\
  policePins w' =
    filter (fun e => negb (now - createdAt (snd e) >? 20 * 60 * 1000)) (policePins w) /\
  activeLocations w' = activeLocations w /\
  (forall k p, In (k, p) (policePins w) ->
     now = createdAt p + 1200000 -> In p (valueOf getAllPolicePins w)) /\
  (forall p, createdAt p + 1200001 = now -> ~ In p (valueOf getAllPolicePins w)).
Proof.
  intros Hok now w'. subst w'. unfold valueOf, stateAfter.
  rewrite getAllPolicePins_run. cbn [fst snd policePins activeLocations].
  rewrite sweptPins_live by assumption. fold now.
  refine (conj eq_refl (conj eq_refl (conj eq_refl (conj _ _)))).
  - intros k p Hin Hnow. apply in_map_iff. exists (k, p). split; [reflexivity|].
    apply In_livePins. cbn [snd]. unfold POLICE_PIN_THRESHOLD. split; [assumption | lia].
  - intros p Hnow Hin. apply in_map_iff in Hin as [e [<- Hin]].
    apply In_livePins in Hin as [_ Hage]. unfold POLICE_PIN_THRESHOLD in Hage. lia.
Qed.

Lemma getAllPolicePins_evicts_stale_witness :
  JsMap.ok (policePins (onePin 1200000)) /\
  In pinA (valueOf getAllPolicePins (onePin 1200000)) /\
  ~ In pinA (valueOf getAllPolicePins (onePin 1200001)).
Proof.
  split; [apply onePin_ok|]. split.
  - destruct (getAllPolicePins_evicts_stale (onePin 1200000) (onePin_ok _))
      as (_ & _ & _ & Hin & _).
    apply (Hin "a-0" pinA); [left; reflexivity | reflexivity].
  - destruct (getAllPolicePins_evicts_stale (onePin 1200001) (onePin_ok _))
      as (_ & _ & _ & _ & Hout).
    apply (Hout pinA). reflexivity.
Defined.

(** *** The two registries are independent *)

(** X2. No operation on positions touches the pins, and no operation on
    pins touches the positions. *)
Theorem registries_are_independent {N : JsNumber} (w : World) :
  (forall userId latitude longitude name,
     policePins (stateAfter (updateLocation userId latitude longitude name) w)
       = policePins w) /\
  (forall userId, policePins (stateAfter (removeLocation userId) w) = policePins w) /\
  policePins (stateAfter getAllLocations w) = policePins w /\
  policePins (stateAfter getLocationCount w) = policePins w /\
  (forall userId userName latitude longitude,
     activeLocations (stateAfter (addPolicePin userId userName latitude longitude) w)
       = activeLocations w) /\
  activeLocations (stateAfter getAllPolicePins w) = activeLocations w.
Proof.
  unfold stateAfter. repeat split; intros.
  - now rewrite updateLocation_run.
  - now rewrite getAllLocations_run.
  - now rewrite getLocationCount_run.
  - rewrite addPolicePin_run. now destruct (hasPinWithin100 _ _ _ _).
  - now rewrite getAllPolicePins_run.
Qed.

(** X3. A pin outlives the position of its creator: when a position
    snapshot, which may evict the creator's position, is followed by a
    pin snapshot, every pin that is at most 1200000 ms old at the second
    read is returned. *)
Theorem pin_survives_position_snapshot {N : JsNumber} (w : World) (k : string)
    (p : PolicePin) :
  JsMap.ok (policePins w) ->
  In (k, p) (policePins w) ->
  clock w (S (tick w)) - createdAt p <= 1200000 ->
  In p (valueOf getAllPolicePins (stateAfter getAllLocations w)).
Proof.
  intros Hok Hin Hage. unfold valueOf, stateAfter.
  rewrite getAllLocations_run. cbn [snd]. rewrite getAllPolicePins_run. cbn [fst].
  rewrite sweptPins_live by assumption. cbn [policePins clock tick].
  apply in_map_iff. exists (k, p). split; [reflexivity|].
  apply In_livePins. now split.
Qed.

Lemma pin_survives_position_snapshot_witness :
  valueOf getAllLocations staleOwnerLivePin = [] /\
  In pinA (valueOf getAllPolicePins (stateAfter getAllLocations staleOwnerLivePin)).
Proof.
  assert (Hok : JsMap.ok (policePins staleOwnerLivePin)) by apply (onePin_ok 0).
  split.
  - unfold valueOf. rewrite getAllLocations_run. cbn [fst].
    rewrite sweptLocations_live; [reflexivity|].
    unfold JsMap.ok. simpl. repeat constructor. simpl. tauto.
  - apply (pin_survives_position_snapshot staleOwnerLivePin "a-0" pinA Hok).
    + left. reflexivity.
    + discriminate.
Defined.

(** X4. A pin that has expired does not block its creator: when every
    pin of the caller that is less than 100 from the candidate is more
    than 1200000 ms old at the call, the call succeeds. *)
Theorem expired_pins_do_not_block {N : JsNumber} (w : World)
    (userId userName : string) (latitude longitude : number) :
  JsMap.ok (policePins w) ->
  (forall k p, In (k, p) (policePins w) -> pin_userId p = userId ->
     (calculateDistance (pin_latitude p) (pin_longitude p) latitude longitude
        <? num_of_Z 100)%num = true ->
     clock w (tick w) - createdAt p > 1200000) ->
  valueOf (addPolicePin userId userName latitude longitude) w
    = {| success := true; error := None |}.
Proof.
  intros Hok Hold. rewrite addPolicePin_value.
  destruct (hasPinWithin100 _ _ _ _) eqn:Hs; [|reflexivity].
  apply hasPinWithin100_true in Hs as (p & Hin & Hu & Hd). exfalso.
  rewrite sweptPins_live in Hin by assumption.
  apply in_map_iff in Hin as [[k q] [Hq Hin]]. cbn [snd] in Hq. subst q.
  apply In_livePins in Hin as [Hin Hage]. cbn [snd] in Hage.
  specialize (Hold k p Hin Hu Hd). unfold POLICE_PIN_THRESHOLD in Hage. lia.
Qed.

Lemma expired_pins_do_not_block_witness :
  JsMap.ok (policePins (onePin 1200001)) /\
  valueOf (addPolicePin "a" "Ann" 0%R 0%R) (onePin 1200001) = accepted.
Proof.
  split; [apply onePin_ok|].
  apply (expired_pins_do_not_block (onePin 1200001) "a" "Ann" 0%R 0%R (onePin_ok _)).
  intros k p [Heq|[]] _ _. injection Heq as _ <-. reflexivity.
Defined.

(** *** Invariants of the reachable states *)

Lemma nameOrDefault_not_empty (name : option string) (userId : string) :
  nameOrDefault name userId <> "".
Proof. destruct name as [[|c s]|]; discriminate. Qed.

Lemma afterOneUser_reachable : reachable afterOneUser.
Proof. unfold afterOneUser. repeat constructor. Qed.

Lemma reachable_KeysAreIds {N : JsNumber} (w : World) : reachable w -> KeysAreIds w.
Proof.
  induction 1 as [c | w u lat lon name _ [IHl IHp] | w u _ [IHl IHp]
                 | w _ [IHl IHp] | w _ [IHl IHp]
                 | w u n lat lon _ [IHl IHp] | w _ [IHl IHp]];
    unfold KeysAreIds, stateAfter.
  - split; intros ? ? [].
  - rewrite updateLocation_run. cbn [snd activeLocations policePins].
    split; [|exact IHp]. intros k r Hin.
    apply JsMapMore.In_set in Hin as [Heq|Hin].
    + injection Heq as -> ->. cbn. split; [reflexivity | apply nameOrDefault_not_empty].
    + apply IHl. eapply JsMapMore.In_sweep, Hin.
  - rewrite removeLocation_run. cbn [snd setActiveLocations activeLocations policePins].
    split; [|exact IHp]. intros k r Hin. apply IHl.
    now apply JsMapMore.In_delete in Hin.
  - rewrite getAllLocations_run. cbn [snd activeLocations policePins].
    split; [|exact IHp]. intros k r Hin. apply IHl. eapply JsMapMore.In_sweep, Hin.
  - rewrite getLocationCount_run. cbn [snd activeLocations policePins].
    split; [|exact IHp]. intros k r Hin. apply IHl. eapply JsMapMore.In_sweep, Hin.
  - rewrite addPolicePin_run.
    destruct (hasPinWithin100 _ _ _ _); cbn [snd activeLocations policePins];
      (split; [exact IHl|]); intros k p Hin.
    + apply IHp. eapply JsMapMore.In_sweep, Hin.
    + apply JsMapMore.In_set in Hin as [Heq|Hin].
      * injection Heq as -> ->. cbn [newPin pin_id pin_userId].
        split; [reflexivity | eexists; reflexivity].
      * apply IHp. eapply JsMapMore.In_sweep, Hin.
  - rewrite getAllPolicePins_run. cbn [snd activeLocations policePins].
    split; [exact IHl|]. intros k p Hin. apply IHp. eapply JsMapMore.In_sweep, Hin.
Qed.

Lemma PinsApart_subset {N : JsNumber} (pins pins' : JsMap.t PolicePin) :
  (forall e, In e pins' -> In e pins) -> PinsApart pins -> PinsApart pins'.
Proof. intros Hsub Hp k1 p1 k2 p2 H1 H2. apply Hp; auto. Qed.

Lemma hasPinWithin100_false {N : JsNumber} userId latitude longitude pins p :
  hasPinWithin100 userId latitude longitude pins = false ->
  In p pins -> pin_userId p = userId ->
  (calculateDistance (pin_latitude p) (pin_longitude p) latitude longitude
     <? num_of_Z 100)%num = false.
Proof.
  intros Hs Hin Hu.
  destruct (num_ltb _ _) eqn:Hd; [|reflexivity].
  assert (H : hasPinWithin100 userId latitude longitude pins = true)
    by (apply hasPinWithin100_true; exists p; auto).
  congruence.
Qed.

Lemma reachable_PinsApart {N : JsNumber} (w : World) :
  reachable w -> PinsApart (policePins w).
Proof.
  induction 1 as [c | w u lat lon name _ IH | w u _ IH | w _ IH | w _ IH
                 | w u n lat lon _ IH | w _ IH]; unfold stateAfter.
  - intros ? ? ? ? [].
  - now rewrite updateLocation_run.
  - now rewrite removeLocation_run.
  - now rewrite getAllLocations_run.
  - now rewrite getLocationCount_run.
  - rewrite addPolicePin_run.
    assert (Hsw : PinsApart (sweptPins w)).
    { eapply PinsApart_subset; [|exact IH]. intros e. apply JsMapMore.In_sweep. }
    destruct (hasPinWithin100 _ _ _ _) eqn:Hs; cbn [snd policePins]; [exact Hsw|].
    intros k1 p1 k2 p2 H1 H2 Hne Hu.
    apply JsMapMore.In_set in H1 as [E1|H1]; apply JsMapMore.In_set in H2 as [E2|H2].
    + congruence.
    + injection E1 as -> ->. cbn [newPin pin_userId pin_latitude pin_longitude] in *.
      right. eapply hasPinWithin100_false; [exact Hs | | now symmetry].
      apply in_map_iff. now exists (k2, p2).
    + injection E2 as -> ->. cbn [newPin pin_userId pin_latitude pin_longitude] in *.
      left. eapply hasPinWithin100_false; [exact Hs | | assumption].
      apply in_map_iff. now exists (k1, p1).
    + now apply (Hsw k1 p1 k2 p2).
  - rewrite getAllPolicePins_run. cbn [snd policePins].
    eapply PinsApart_subset; [|exact IH]. intros e. apply JsMapMore.In_sweep.
Qed.

(** X5. In every state the module reaches, a record is stored under its
    own id, the name of a position is not empty, and the id of a pin is
    its creator, a dash and an instant. *)
Theorem reachable_records_are_well_formed {N : JsNumber} (w : World) :
  reachable w ->
  (forall k r, In (k, r) (activeLocations w) -> loc_id r = k /\ loc_name r <> "") /\
  (forall k p, In (k, p) (policePins w) ->
     pin_id p = k /\ exists t, k = makePinId (pin_userId p) t).
Proof. apply reachable_KeysAreIds. Qed.

Lemma reachable_records_are_well_formed_witness :
  reachable afterOneUser /\
  (forall k r, In (k, r) (activeLocations afterOneUser) ->
     loc_id r = k /\ loc_name r <> "").
Proof.
  split; [apply afterOneUser_reachable|].
  exact (proj1 (reachable_records_are_well_formed afterOneUser afterOneUser_reachable)).
Defined.

(** X6. In every state the module reaches, a position snapshot lists
    each subject at most once, and a pin snapshot lists each pin id at
    most once. *)
Theorem snapshot_ids_are_unique {N : JsNumber} (w : World) :
  reachable w ->
  NoDup (map loc_id (valueOf getAllLocations w)) /\
  NoDup (map pin_id (valueOf getAllPolicePins w)).
Proof.
  intros Hr. destruct (reachable_KeysAreIds w Hr) as [Hl Hp].
  destruct (reachable_ok w Hr) as [Hokl Hokp].
  unfold valueOf. rewrite getAllLocations_run, getAllPolicePins_run. cbn [fst].
  split.
  - replace (map loc_id (JsMap.values (sweptLocations w)))
      with (JsMap.keys (sweptLocations w)).
    + now apply JsMapFacts.ok_sweep.
    + unfold JsMap.keys, JsMap.values. rewrite map_map. apply map_ext_in.
      intros [k r] Hin. symmetry. apply Hl. eapply JsMapMore.In_sweep, Hin.
  - replace (map pin_id (JsMap.values (sweptPins w)))
      with (JsMap.keys (sweptPins w)).
    + now apply JsMapFacts.ok_sweep.
    + unfold JsMap.keys, JsMap.values. rewrite map_map. apply map_ext_in.
      intros [k p] Hin. symmetry. apply Hp. eapply JsMapMore.In_sweep, Hin.
Qed.

Lemma snapshot_ids_are_unique_witness :
  reachable afterOneUser /\
  NoDup (map loc_id (valueOf getAllLocations afterOneUser)).
Proof.
  split; [apply afterOneUser_reachable|].
  exact (proj1 (snapshot_ids_are_unique afterOneUser afterOneUser_reachable)).
Defined.



(** X8. In every state the module reaches, of two pins of one creator
    stored under different ids, one is not less than 100 from the other:
    the distance computed from one of them to the other is not less than
    100. *)
Theorem own_pins_stay_apart {N : JsNumber} (w : World)
    (k1 k2 : string) (p1 p2 : PolicePin) :
  reachable w ->
  In (k1, p1) (policePins w) -> In (k2, p2) (policePins w) -> k1 <> k2 ->
  pin_userId p1 = pin_userId p2 ->
  (calculateDistance (pin_latitude p1) (pin_longitude p1)
     (pin_latitude p2) (pin_longitude p2) <? num_of_Z 100)%num = false \/
  (calculateDistance (pin_latitude p2) (pin_longitude p2)
     (pin_latitude p1) (pin_longitude p1) <? num_of_Z 100)%num = false.
Proof. intros Hr. apply (reachable_PinsApart w Hr). Qed.

Lemma twoFarPins_reachable : reachable twoFarPins.
Proof. unfold twoFarPins. repeat constructor. Qed.

Lemma twoFarPins_pins :
  policePins twoFarPins =
  [("a-1", newPin "a" "Ann" 0%R 0%R 1 2); ("a-4", newPin "a" "Ann" 0%R 180%R 4 5)].
Proof.
  unfold twoFarPins.
  set (w1 := stateAfter (addPolicePin (N := RealNumber) "a" "Ann" 0%R 0%R)
               (initialWorld (fun n => Z.of_nat n))).
  assert (Hw1 : w1 = {| activeLocations := JsMap.empty;
                        policePins := [("a-1", newPin "a" "Ann" 0%R 0%R 1 2)];
                        clock := fun n => Z.of_nat n; tick := 3 |}).
  { subst w1. unfold stateAfter. rewrite addPolicePin_run. reflexivity. }
  assert (Hs1 : sweptPins w1 = [("a-1", newPin "a" "Ann" 0%R 0%R 1 2)]).
  { rewrite sweptPins_live.
    - rewrite Hw1. reflexivity.
    - rewrite Hw1. unfold JsMap.ok. simpl. repeat constructor. simpl. tauto. }
  unfold stateAfter at 1. rewrite addPolicePin_run, Hs1.
  cbn [JsMap.values map snd hasPinWithin100 newPin pin_userId pin_latitude pin_longitude].
  rewrite String.eqb_refl, far_antipodes. cbn [snd policePins].
  rewrite Hw1. reflexivity.
Qed.

Lemma own_pins_stay_apart_witness :
  reachable twoFarPins /\
  In ("a-1", newPin "a" "Ann" 0%R 0%R 1 2) (policePins twoFarPins) /\
  In ("a-4", newPin "a" "Ann" 0%R 180%R 4 5) (policePins twoFarPins) /\
  (num_ltb (calculateDistance (N := RealNumber) 0%R 0%R 0%R 180%R) (num_of_Z 100)
     = false \/
   num_ltb (calculateDistance (N := RealNumber) 0%R 180%R 0%R 0%R) (num_of_Z 100)
     = false).
Proof.
  assert (H1 : In ("a-1", newPin "a" "Ann" 0%R 0%R 1 2) (policePins twoFarPins))
    by (rewrite twoFarPins_pins; left; reflexivity).
  assert (H2 : In ("a-4", newPin "a" "Ann" 0%R 180%R 4 5) (policePins twoFarPins))
    by (rewrite twoFarPins_pins; right; left; reflexivity).
  split; [apply twoFarPins_reachable|]. split; [exact H1|]. split; [exact H2|].
  apply (own_pins_stay_apart twoFarPins _ _ _ _ twoFarPins_reachable H1 H2).
  - discriminate.
  - reflexivity.
Defined.

(** *** Snapshots that follow one another *)

(** X9. Eviction is for good: a position snapshot taken right after
    another returns only records the first one returned, whatever the
    clock reads; and when the clock has not advanced between the two
    reads, the second returns what the first returned and evicts
    nothing. *)
Theorem repeated_snapshot_only_shrinks {N : JsNumber} (w : World) :
  JsMap.ok (activeLocations w) ->
  let w1 := stateAfter getAllLocations w in
  (forall r, In r (valueOf getAllLocations w1) -> In r (valueOf getAllLocations w)) /\
  (clock w (S (tick w)) <= clock w (tick w) ->
   valueOf getAllLocations w1 = valueOf getAllLocations w /\
   activeLocations (stateAfter getAllLocations w1) = activeLocations w1).
Proof.
  intros Hok w1.
  assert (Hok1 : JsMap.ok (activeLocations w1)).
  { subst w1. unfold stateAfter. rewrite getAllLocations_run. cbn [snd activeLocations].
    now apply JsMapFacts.ok_sweep. }
  assert (Hw1 : activeLocations w1 = liveLocations (clock w (tick w)) (activeLocations w)
                /\ clock w1 = clock w /\ tick w1 = S (tick w)).
  { subst w1. unfold stateAfter. rewrite getAllLocations_run. cbn [snd activeLocations clock tick].
    now rewrite sweptLocations_live. }
  destruct Hw1 as (Hl & Hc & Ht).
  unfold valueOf, stateAfter. rewrite !getAllLocations_run. cbn [fst snd activeLocations].
  fold (stateAfter getAllLocations w). fold w1.
  rewrite (sweptLocations_live w1 Hok1), (sweptLocations_live w Hok), Hl, Hc, Ht.
  split.
  - intros r Hin. apply in_map_iff in Hin as [e [He Hin]].
    apply in_map_iff. exists e. split; [assumption|].
    unfold liveLocations in *. eapply JsMapMore.In_keep_keep, Hin.
  - intros Hclock.
    assert (E : liveLocations (clock w (S (tick w)))
                  (liveLocations (clock w (tick w)) (activeLocations w))
                = liveLocations (clock w (tick w)) (activeLocations w)).
    { unfold liveLocations, keep. rewrite JsMapFacts.filter_filter.
      apply filter_ext. intros e. unfold staleLocation, STALE_THRESHOLD.
      destruct (clock w (tick w) - lastUpdated (snd e) >? 30 * 1000) eqn:E1;
        [reflexivity|]. cbn [negb andb].
      destruct (clock w (S (tick w)) - lastUpdated (snd e) >? 30 * 1000) eqn:E2;
        [|reflexivity].
      rewrite Z.gtb_ltb in E1, E2. apply Z.ltb_ge in E1. apply Z.ltb_lt in E2. lia. }
    now rewrite E.
Qed.

Lemma repeated_snapshot_only_shrinks_witness :
  JsMap.ok (activeLocations (twoPositions 50001)) /\
  valueOf getAllLocations (stateAfter getAllLocations (twoPositions 50001)) = [bob].
Proof.
  split; [apply twoPositions_ok|].
  destruct (repeated_snapshot_only_shrinks (twoPositions 50001) (twoPositions_ok _))
    as (_ & Hsame).
  destruct Hsame as [Hval _]; [discriminate|].
  rewrite Hval. unfold valueOf. rewrite getAllLocations_run. cbn [fst].
  rewrite sweptLocations_live by apply twoPositions_ok. reflexivity.
Defined.

(** X10. [updateLocation] keeps the order of the registry: the subject
    that is still listed after the eviction pass keeps its place, and
    any other subject is listed last; the registry grows by one record in
    the second case only. *)
Theorem updateLocation_keeps_order {N : JsNumber} (w : World)
    (userId : string) (latitude longitude : number) (name : option string) :
  JsMap.ok (activeLocations w) ->
  let live := filter (fun e => negb (clock w (tick w) - lastUpdated (snd e) >? 30 * 1000))
                (activeLocations w) in
  let w' := stateAfter (updateLocation userId latitude longitude name) w in
  JsMap.keys (activeLocations w') =
    match JsMap.get userId live with
    | Some _ => JsMap.keys live
    | None => (JsMap.keys live ++ [userId])%list
    end /\
  JsMap.size (activeLocations w') =
    match JsMap.get userId live with
    | Some _ => JsMap.size live
    | None => JsMap.size live + 1
    end.
Proof.
  intros Hok live w'. subst w'. unfold stateAfter. rewrite updateLocation_run.
  cbn [snd activeLocations]. rewrite sweptLocations_live by assumption.
  change (liveLocations (clock w (tick w)) (activeLocations w)) with live.
  split.
  - destruct (JsMap.get userId live) as [r|] eqn:G.
    + apply JsMapFacts.keys_set. apply JsMapFacts.get_In in G.
      change userId with (fst (userId, r)). now apply in_map.
    + apply JsMapFacts.get_None_notin in G. rewrite JsMapFacts.set_absent by assumption.
      unfold JsMap.keys. now rewrite map_app.
  - unfold JsMap.size. rewrite JsMapMore.length_set.
    destruct (JsMap.get userId live); [reflexivity | lia].
Qed.

Lemma updateLocation_keeps_order_witness :
  JsMap.ok (activeLocations (twoPositions 60000)) /\
  JsMap.keys (activeLocations
                (stateAfter (updateLocation "u1" 1%R 2%R None) (twoPositions 60000)))
    = ["u2"; "u1"] /\
  JsMap.keys (activeLocations
                (stateAfter (updateLocation "u1" 1%R 2%R None) (twoPositions 10)))
    = ["u1"; "u2"].
Proof.
  split; [apply twoPositions_ok|]. split.
  - rewrite (proj1 (updateLocation_keeps_order (twoPositions 60000) "u1" 1%R 2%R None
                      (twoPositions_ok _))). reflexivity.
  - rewrite (proj1 (updateLocation_keeps_order (twoPositions 10) "u1" 1%R 2%R None
                      (twoPositions_ok _))). reflexivity.
Defined.

(** *** The loader *)

(** X11. [loader] returns the positions that are at most 30000 ms old at
    its first reading of the clock and the pins that are at most
    1200000 ms old at its second reading, in the order of the maps; what
    it returns is what the two registries hold afterwards. *)
Theorem loader_returns_both_snapshots {N : JsNumber} (w : World) :
  JsMap.ok (activeLocations w) -> JsMap.ok (policePins w) ->
  let d := valueOf Home.loader w in
  let w' := stateAfter Home.loader w in
  Home.locations d =
    JsMap.values
      (filter (fun e => negb (clock w (tick w) - lastUpdated (snd e) >? 30 * 1000))
         (activeLocations w)) /\
  Home.policePins d =
    JsMap.values
      (filter (fun e => negb (clock w (S (tick w)) - createdAt (snd e) >? 20 * 60 * 1000))
         (policePins w)) /\
  Home.locations d = JsMap.values (activeLocations w') /\
  Home.policePins d = JsMap.values (policePins w') /\
  tick w' = S (S (tick w)).
Proof.
  intros Hokl Hokp d w'. subst d w'. unfold valueOf, stateAfter, Home.loader, bind.
  rewrite getAllLocations_run, getAllPolicePins_run. unfold ret.
  cbn [fst snd Home.locations Home.policePins activeLocations policePins tick].
  rewrite sweptLocations_live by assumption.
  rewrite sweptPins_live by assumption.
  repeat split.
Qed.

Lemma loader_returns_both_snapshots_witness :
  JsMap.ok (activeLocations staleOwnerLivePin) /\
  JsMap.ok (policePins staleOwnerLivePin) /\
  Home.locations (valueOf Home.loader staleOwnerLivePin) = [] /\
  Home.policePins (valueOf Home.loader staleOwnerLivePin) = [pinA].
Proof.
  assert (Hl : JsMap.ok (activeLocations staleOwnerLivePin)).
  { unfold JsMap.ok. simpl. repeat constructor. simpl. tauto. }
  assert (Hp : JsMap.ok (policePins staleOwnerLivePin)) by apply (onePin_ok 0).
  split; [exact Hl|]. split; [exact Hp|].
  destruct (loader_returns_both_snapshots staleOwnerLivePin Hl Hp) as (H1 & H2 & _).
  rewrite H1, H2. split; reflexivity.
Defined.

(** ** The nearest pin *)

Section Nearest.

Context {N : JsNumber}.
Import NearestPolice.

Lemma nearestLoop_result (here : Location) (pins : list PolicePin)
    (p0 : PolicePin) (d0 : number) :
  d0 = calculateDistance (latitude here) (longitude here)
         (pin_latitude p0) (pin_longitude p0) ->
  (fst (nearestLoop here pins p0 d0) = p0 \/ In (fst (nearestLoop here pins p0 d0)) pins) /\
  snd (nearestLoop here pins p0 d0) =
    calculateDistance (latitude here) (longitude here)
      (pin_latitude (fst (nearestLoop here pins p0 d0)))
      (pin_longitude (fst (nearestLoop here pins p0 d0))).
Proof.
  revert p0 d0. induction pins as [|q pins IH]; intros p0 d0 Hd; cbn [nearestLoop].
  - cbn [fst snd]. split; [now left | exact Hd].
  - destruct (num_ltb _ d0).
    + destruct (IH q _ eq_refl) as [[->|Hin] Hs]; (split; [|exact Hs]).
      * right. now left.
      * right. now right.
    + destruct (IH p0 d0 Hd) as [[->|Hin] Hs]; (split; [|exact Hs]).
      * now left.
      * right. now right.
Qed.

Lemma nearestLoop_not_beaten (here : Location) (pins seen : list PolicePin)
    (p0 : PolicePin) (d0 : number) :
  (forall x y z : number, num_ltb x y = true -> num_ltb y z = true -> num_ltb x z = true) ->
  (forall q, In q seen ->
     num_ltb (calculateDistance (latitude here) (longitude here)
                (pin_latitude q) (pin_longitude q)) d0 = false) ->
  forall q, In q (seen ++ pins) ->
    num_ltb (calculateDistance (latitude here) (longitude here)
               (pin_latitude q) (pin_longitude q))
      (snd (nearestLoop here pins p0 d0)) = false.
Proof.
  intros Htrans. revert seen p0 d0.
  induction pins as [|r pins IH]; intros seen p0 d0 Hseen q Hq; cbn [nearestLoop].
  - rewrite app_nil_r in Hq. cbn [snd]. now apply Hseen.
  - assert (Hq' : In q ((seen ++ [r]) ++ pins)) by (now rewrite <- app_assoc).
    destruct (num_ltb _ d0) eqn:Hlt.
    + apply (IH (seen ++ [r])%list); [|exact Hq'].
      intros s Hs. apply in_app_or in Hs as [Hs|[<-|[]]].
      * destruct (num_ltb (calculateDistance _ _ (pin_latitude s) _) _) eqn:E;
          [|reflexivity].
        pose proof (Hseen s Hs) as Hc. rewrite (Htrans _ _ _ E Hlt) in Hc.
        discriminate Hc.
      * apply num_ltb_irrefl.
    + apply (IH (seen ++ [r])%list); [|exact Hq'].
      intros s Hs. apply in_app_or in Hs as [Hs|[<-|[]]]; [now apply Hseen | exact Hlt].
Qed.

End Nearest.

Lemma Rltb_trans (x y z : R) : Rltb x y = true -> Rltb y z = true -> Rltb x z = true.
Proof.
  unfold Rltb. destruct (Rlt_dec x y), (Rlt_dec y z), (Rlt_dec x z);
    try discriminate; try reflexivity.
  intros _ _. exfalso. eauto using Rlt_trans.
Qed.

Lemma findNearest_far_then_near :
  NearestPolice.findNearest (Some origin) [pinFar; pinA] =
  Some (pinA, calculateDistance (N := RealNumber) 0%R 0%R 0%R 0%R).
Proof.
  cbn [NearestPolice.findNearest NearestPolice.nearestLoop origin pinFar pinA
       NearestPolice.latitude NearestPolice.longitude pin_latitude pin_longitude].
  rewrite calculateDistance_antipodes, calculateDistance_same.
  cbn [num_ltb RealNumber]. unfold Rltb.
  destruct (Rlt_dec _ _) as [_|H]; [reflexivity|].
  exfalso. apply H. pose proof PI2_1. lra.
Qed.

(** X12. The search for the nearest pin gives nothing exactly when there
    is no location or no pin; otherwise it gives a pin of the list,
    together with the distance from the location to that pin. *)
Theorem findNearest_returns_a_pin {N : JsNumber}
    (currentUserLocation : option NearestPolice.Location)
    (policePins : list PolicePin) :
  (NearestPolice.findNearest currentUserLocation policePins = None <->
     currentUserLocation = None \/ policePins = []) /\
  (forall p d, NearestPolice.findNearest currentUserLocation policePins = Some (p, d) ->
     In p policePins /\
     exists here, currentUserLocation = Some here /\
       d = calculateDistance (NearestPolice.latitude here) (NearestPolice.longitude here)
             (pin_latitude p) (pin_longitude p)).
Proof.
  destruct currentUserLocation as [here|], policePins as [|p0 rest];
    cbn [NearestPolice.findNearest]; (split; [split|]); try discriminate; auto.
  - intros [H|H]; discriminate.
  - intros p d [= E].
    destruct (nearestLoop_result here rest p0 _ eq_refl) as [Hin Hd].
    rewrite E in Hin, Hd. cbn [fst snd] in Hin, Hd.
    split; [destruct Hin as [->|Hin]; [now left | now right]|].
    exists here. now split.
Qed.

Lemma findNearest_returns_a_pin_witness :
  In pinA [pinFar; pinA] /\
  NearestPolice.findNearest (N := RealNumber) None [pinFar; pinA] = None.
Proof.
  split.
  - exact (proj1 (proj2 (findNearest_returns_a_pin (Some origin) [pinFar; pinA])
                    pinA _ findNearest_far_then_near)).
  - apply (findNearest_returns_a_pin None [pinFar; pinA]). now left.
Defined.

(** X13. When [<] is transitive on the numbers, as it is on doubles and
    on reals, no pin of the list is strictly nearer to the location than
    the pin the search gives. *)
Theorem findNearest_is_not_beaten {N : JsNumber} (here : NearestPolice.Location)
    (policePins : list PolicePin) (p : PolicePin) (d : number) :
  (forall x y z : number, num_ltb x y = true -> num_ltb y z = true -> num_ltb x z = true) ->
  NearestPolice.findNearest (Some here) policePins = Some (p, d) ->
  forall q, In q policePins ->
    (calculateDistance (NearestPolice.latitude here) (NearestPolice.longitude here)
       (pin_latitude q) (pin_longitude q) <? d)%num = false.
Proof.
  intros Htrans Hfind q Hq. destruct policePins as [|p0 rest]; [destruct Hq|].
  cbn [NearestPolice.findNearest] in Hfind. injection Hfind as Hfind.
  pose proof (nearestLoop_not_beaten here rest [p0] p0
                (calculateDistance (NearestPolice.latitude here)
                   (NearestPolice.longitude here) (pin_latitude p0) (pin_longitude p0))
                Htrans) as Hmin.
  rewrite Hfind in Hmin. cbn [snd] in Hmin. apply Hmin; [|exact Hq].
  intros s [<-|[]]. apply num_ltb_irrefl.
Qed.

Lemma findNearest_is_not_beaten_witness :
  NearestPolice.findNearest (Some origin) [pinFar; pinA]
    = Some (pinA, calculateDistance (N := RealNumber) 0%R 0%R 0%R 0%R) /\
  num_ltb (calculateDistance (N := RealNumber) 0%R 0%R 0%R 180%R)
    (calculateDistance (N := RealNumber) 0%R 0%R 0%R 0%R) = false.
Proof.
  split; [exact findNearest_far_then_near|].
  apply (findNearest_is_not_beaten origin [pinFar; pinA] pinA _
           Rltb_trans findNearest_far_then_near pinFar).
  now left.
Defined.

(** ** The age label *)

(** X14. For two valid dates at most 2^53 ms apart, the label depends
    on the whole seconds since the date: a date less than a minute ago,
    or in the future, is ["just now"]; the minutes shown in the plural
    are the whole minutes elapsed, from 2 to 59, and the hours shown in
    the plural are the whole hours elapsed, 2 or more - hours are never
    turned into days. *)
Theorem getTimeAgo_labels (now date : Z) :
  Z.abs now <= 8640000000000000 ->
  Z.abs date <= 8640000000000000 ->
  Z.abs (now - date) <= 9007199254740992 ->
  let age := now - date in
  (age < 60000 -> LocationMap.getTimeAgo now date = Some "just now") /\
  (60000 <= age < 120000 -> LocationMap.getTimeAgo now date = Some "1 minute ago") /\
  (120000 <= age < 3600000 ->
     2 <= age / 60000 <= 59 /\
     LocationMap.getTimeAgo now date
       = Some (LocationMap.decimal (age / 60000) ++ " minutes ago")) /\
  (3600000 <= age < 7200000 -> LocationMap.getTimeAgo now date = Some "1 hour ago") /\
  (7200000 <= age ->
     2 <= age / 3600000 /\
     LocationMap.getTimeAgo now date
       = Some (LocationMap.decimal (age / 3600000) ++ " hours ago")).
Proof.
  intros Hnow Hdate Hdiff age. unfold LocationMap.getTimeAgo.
  assert (Hr : LocationMap.inRange now date = true).
  { unfold LocationMap.inRange. rewrite !andb_true_iff, !Z.leb_le. auto. }
  rewrite Hr. fold age.
  assert (Hm : age / 1000 / 60 = age / 60000) by (rewrite Z.div_div by lia; reflexivity).
  assert (Hh : age / 1000 / 3600 = age / 3600000) by (rewrite Z.div_div by lia; reflexivity).
  pose proof (Z.div_mod age 1000 ltac:(lia)) as Hs.
  pose proof (Z.mod_pos_bound age 1000 ltac:(lia)) as Hsb.
  pose proof (Z.div_mod age 60000 ltac:(lia)) as Hmin.
  pose proof (Z.mod_pos_bound age 60000 ltac:(lia)) as Hminb.
  pose proof (Z.div_mod age 3600000 ltac:(lia)) as Hhr.
  pose proof (Z.mod_pos_bound age 3600000 ltac:(lia)) as Hhrb.
  rewrite Hm, Hh.
  destruct (Z.ltb_spec (age / 1000) 60); [repeat split; intros; try lia; reflexivity|].
  destruct (Z.ltb_spec (age / 1000) 120); [repeat split; intros; try lia; reflexivity|].
  destruct (Z.ltb_spec (age / 1000) 3600); [repeat split; intros; try lia; reflexivity|].
  destruct (Z.ltb_spec (age / 1000) 7200); [repeat split; intros; try lia; reflexivity|].
  repeat split; intros; try lia; reflexivity.
Qed.

Lemma getTimeAgo_labels_witness :
  LocationMap.getTimeAgo 3599999 0 = Some "59 minutes ago" /\
  LocationMap.getTimeAgo 0 5000 = Some "just now" /\
  LocationMap.getTimeAgo 360000000 0 = Some "100 hours ago".
Proof.
  split; [|split].
  - destruct (getTimeAgo_labels 3599999 0) as (_ & _ & H & _); try (cbn; lia).
    rewrite (proj2 (H ltac:(cbn; lia))). reflexivity.
  - destruct (getTimeAgo_labels 0 5000) as (H & _); try (cbn; lia).
    apply H. reflexivity.
  - destruct (getTimeAgo_labels 360000000 0) as (_ & _ & _ & _ & H); try (cbn; lia).
    rewrite (proj2 (H ltac:(cbn; lia))). reflexivity.
Defined.

(** ** The id of a pin *)

(** X15. The id of a pin tells its creator and its instant: made at
    instants since the epoch, two ids are equal exactly when the creators
    are equal and the instants are equal. *)
Theorem pinId_determines_creator_and_instant (u u' : string) (t t' : Z) :
  0 <= t -> 0 <= t' ->
  (makePinId u t = makePinId u' t' <-> u = u' /\ t = t').
Proof.
  intros Ht Ht'. split.
  - now apply makePinId_inj.
  - now intros [-> ->].
Qed.

Lemma pinId_determines_creator_and_instant_witness :
  makePinId "a" 15 = "a-15" /\ makePinId "a-1" 5 <> makePinId "a" 15.
Proof.
  split; [reflexivity|].
  intros E.
  apply (pinId_determines_creator_and_instant "a-1" "a" 5 15) in E; [|lia|lia].
  destruct E as [E _]. discriminate E.
Defined.

(** Before the epoch the dash of the sign is taken for the separator. *)
Example makePinId_before_epoch : makePinId "a" (-5) = makePinId "a-" 5.
Proof. reflexivity. Qed.

(** ** A pin that was admitted *)

(** X16. A pin that was admitted is listed: when [addPolicePin] has
    succeeded, a pin snapshot taken next, at most 1200000 ms after the
    creation time of the pin, returns the pin, with the name given at the
    call. *)
Theorem admitted_pin_is_listed {N : JsNumber} (w : World)
    (userId userName : string) (latitude longitude : number) :
  JsMap.ok (policePins w) ->
  let w' := stateAfter (addPolicePin userId userName latitude longitude) w in
  valueOf (addPolicePin userId userName latitude longitude) w
    = {| success := true; error := None |} ->
  clock w' (tick w') - clock w (S (S (tick w))) <= 1200000 ->
  In {| pin_id := makePinId userId (clock w (S (tick w)));
        pin_userId := userId; pin_userName := userName;
        pin_latitude := latitude; pin_longitude := longitude;
        createdAt := clock w (S (S (tick w))) |}
     (valueOf getAllPolicePins w').
Proof.
  intros Hok w' Hacc Hage. rewrite addPolicePin_value in Hacc.
  assert (Hw' : w' =
    {| activeLocations := activeLocations w;
       policePins :=
         JsMap.set (makePinId userId (clock w (S (tick w))))
           (newPin userId userName latitude longitude
              (clock w (S (tick w))) (clock w (S (S (tick w)))))
           (sweptPins w);
       clock := clock w; tick := S (S (S (tick w))) |}).
  { subst w'. unfold stateAfter. rewrite addPolicePin_run.
    destruct (hasPinWithin100 _ _ _ _); [discriminate | reflexivity]. }
  assert (Hok' : JsMap.ok (policePins w')).
  { rewrite Hw'. cbn [policePins]. apply JsMapFacts.ok_set.
    now apply JsMapFacts.ok_sweep. }
  unfold valueOf. rewrite getAllPolicePins_run. cbn [fst].
  rewrite sweptPins_live by assumption.
  apply in_map_iff. eexists (_, _). split; [reflexivity|].
  apply In_livePins. split.
  - rewrite Hw'. cbn [policePins]. apply JsMapFacts.get_In, JsMapFacts.get_set_same.
  - cbn [snd createdAt]. unfold POLICE_PIN_THRESHOLD. lia.
Qed.

Lemma admitted_pin_is_listed_witness :
  JsMap.ok (policePins (onePin 5)) /\
  In {| pin_id := "b-5"; pin_userId := "b"; pin_userName := "Ben";
        pin_latitude := 0%R; pin_longitude := 0%R; createdAt := 5 |}
     (valueOf getAllPolicePins (stateAfter (addPolicePin "b" "Ben" 0%R 0%R) (onePin 5))).
Proof.
  split; [apply onePin_ok|].
  apply (admitted_pin_is_listed (onePin 5) "b" "Ben" 0%R 0%R (onePin_ok _)).
  - rewrite addPolicePin_value. rewrite sweptPins_live by apply onePin_ok. reflexivity.
  - unfold stateAfter. rewrite addPolicePin_run.
    destruct (hasPinWithin100 _ _ _ _); cbn; discriminate.
Defined.

(** ** Two calls issued together *)

(** The operations are synchronous: of two calls issued together one is
    served to its end, then the other, in one order or the other. *)

Lemma addPolicePin_accepted_state {N : JsNumber} (w : World)
    (userId userName : string) (latitude longitude : number) :
  valueOf (addPolicePin userId userName latitude longitude) w = accepted ->
  clock (stateAfter (addPolicePin userId userName latitude longitude) w) = clock w /\
  tick (stateAfter (addPolicePin userId userName latitude longitude) w)
    = S (S (S (tick w))).
Proof.
  rewrite addPolicePin_value. unfold stateAfter. rewrite addPolicePin_run.
  destruct (hasPinWithin100 _ _ _ _); [discriminate|]. now split.
Qed.

Lemma addPolicePin_accepted_when_clear {N : JsNumber} (w : World)
    (userId userName : string) (latitude longitude : number) :
  JsMap.ok (policePins w) ->
  (forall p,
     In p (JsMap.values (livePins (clock w (tick w)) (policePins w))) ->
     pin_userId p = userId ->
     (calculateDistance (pin_latitude p) (pin_longitude p) latitude longitude
        <? num_of_Z 100)%num = false) ->
  valueOf (addPolicePin userId userName latitude longitude) w = accepted.
Proof.
  intros Hok Hclear. rewrite addPolicePin_value.
  destruct (hasPinWithin100 _ _ _ _) eqn:Hs; [|reflexivity].
  apply hasPinWithin100_true in Hs as (p & Hin & Hu & Hd).
  rewrite sweptPins_live in Hin by assumption.
  rewrite (Hclear p Hin Hu) in Hd. discriminate.
Qed.



